(** * Registry proxy interceptors (src/ui/proxy/interceptors.go)

    A shallow embedding of the manifest-pull interception chain:
    [MatchPullManifest], the handlers [urlHandler], [contentTrustHandler],
    [vulnerableHandler] and [funnelHandler], and their helpers
    [matchNotaryDigest], [copyResp] and [marshalError].

    Go strings are [string]; the header map is a [gmap]; Go [int] and
    [int64] values are [Z] (the code only compares and prints them).
    Handlers run in a state monad over the heap of response writers, the
    package variable [rec] and a trace of the calls made to collaborators
    outside the package.  Log output is left out. *)

From Stdlib Require Import ZArith Ascii String.
From stdpp Require Import gmap strings list fin_maps pretty.

Open Scope string_scope.
Open Scope list_scope.

(** ** Strings as character lists *)

Abbreviation chars := list_ascii_of_string.
Abbreviation str := string_of_list_ascii.

(** strings.TrimSuffix: [s] without the trailing [suffix], if it has one. *)
Definition TrimSuffix (s suffix : string) : string :=
  if decide (chars suffix `suffix_of` chars s)
  then str (take (length (chars s) - length (chars suffix)) (chars s))
  else s.

(** strings.TrimPrefix: [s] without the leading [prefix], if it has one. *)
Definition TrimPrefix (s prefix : string) : string :=
  if decide (chars prefix `prefix_of` chars s)
  then str (drop (length (chars prefix)) (chars s))
  else s.

(** The first occurrence of [sep] in [s]: the text before it and the text
    after it (strings.Index and the two slices genSplit takes). *)
Fixpoint cut (sep s : list ascii) : option (list ascii * list ascii) :=
  if decide (sep `prefix_of` s) then Some ([], drop (length sep) s)
  else match s with
       | [] => None
       | c :: s' => (λ ab, (c :: ab.1, ab.2)) <$> cut sep s'
       end.

(** genSplit for a non-empty separator and [n] > 0: at most [n] pieces, the
    last one being the unsplit remainder. *)
Fixpoint genSplit (s sep : list ascii) (n : nat) : list (list ascii) :=
  match n with
  | 0 => []
  | 1 => [s]
  | S n' => match cut sep s with
            | None => [s]
            | Some (a, b) => a :: genSplit b sep n'
            end
  end.

(** strings.SplitN, as called here (non-empty separator, positive count). *)
Definition SplitN (s sep : string) (n : nat) : list string :=
  str <$> genSplit (chars s) (chars sep) n.

(** ** Regular expressions, leftmost-first

    Go's regexp package picks, among the matches that start leftmost, the
    one a backtracking search finds first.  [run r s] lists every way [r]
    can match a prefix of [s] in the order of that search: each entry is
    the unread rest of [s] and the capture groups closed on the way.  The
    first entry is the match the package reports. *)
Module Regexp.

Inductive re : Type :=
| Eps
| Chr (p : ascii → bool)
| Cat (r1 r2 : re)
| Star (r : re)
| Upto (n : nat) (r : re)
| Group (i : nat) (r : re).

(** Captures: group index and captured text, most recent last. *)
Definition caps := list (nat * list ascii).

(** Greedy repetition: one more iteration is tried before stopping.  An
    iteration that reads nothing is not repeated. *)
Fixpoint star_iter (f : list ascii → list (list ascii * caps))
    (fuel : nat) (s : list ascii) : list (list ascii * caps) :=
  match fuel with
  | 0 => [(s, [])]
  | S fuel' =>
      (f s ≫= λ '(s1, c1),
         if decide (length s1 < length s)%nat
         then star_iter f fuel' s1 ≫= λ '(s2, c2), [(s2, c1 ++ c2)]
         else [])
      ++ [(s, [])]
  end.

(** Greedy counted repetition [r{0,n}]. *)
Fixpoint upto_iter (f : list ascii → list (list ascii * caps))
    (n : nat) (s : list ascii) : list (list ascii * caps) :=
  match n with
  | 0 => [(s, [])]
  | S n' =>
      (f s ≫= λ '(s1, c1),
         upto_iter f n' s1 ≫= λ '(s2, c2), [(s2, c1 ++ c2)])
      ++ [(s, [])]
  end.

Fixpoint run (r : re) (s : list ascii) : list (list ascii * caps) :=
  match r with
  | Eps => [(s, [])]
  | Chr p => match s with
             | c :: s' => if p c then [(s', [])] else []
             | [] => []
             end
  | Cat r1 r2 =>
      run r1 s ≫= λ '(s1, c1), run r2 s1 ≫= λ '(s2, c2), [(s2, c1 ++ c2)]
  | Star r1 => star_iter (run r1) (length s) s
  | Upto n r1 => upto_iter (run r1) n s
  | Group i r1 =>
      run r1 s ≫= λ '(s1, c1),
        [(s1, c1 ++ [(i, take (length s - length s1) s)])]
  end.

(** [r+] *)
Definition Plus (r : re) : re := Cat r (Star r).

(** A literal string. *)
Fixpoint Lit (s : list ascii) : re :=
  match s with
  | [] => Eps
  | c :: s' => Cat (Chr (Ascii.eqb c)) (Lit s')
  end.

(** Regexp.NumSubexp: the number of capture groups. *)
Fixpoint NumSubexp (r : re) : nat :=
  match r with
  | Eps | Chr _ => 0
  | Cat r1 r2 => NumSubexp r1 `max` NumSubexp r2
  | Star r1 | Upto _ r1 => NumSubexp r1
  | Group i r1 => i `max` NumSubexp r1
  end.

(** The text of group [i]: its last capture, or the empty string. *)
Fixpoint submatch (c : caps) (i : nat) : list ascii :=
  match c with
  | [] => []
  | (j, w) :: c' =>
      if decide (i ∈ c'.*1) then submatch c' i
      else if decide (i = j) then w else submatch c' i
  end.

(** Regexp.FindStringSubmatch for a pattern anchored at the start of the
    text by a leading [^]: the match can only begin at offset 0.  The
    result is [None] (Go's nil slice) or the matched text followed by the
    text of each group. *)
Definition FindStringSubmatch (r : re) (s : string) : option (list string) :=
  match run r (chars s) with
  | [] => None
  | (rest, c) :: _ =>
      Some (str (take (length (chars s) - length rest) (chars s))
            :: ((λ i, str (submatch c i)) <$> seq 1 (NumSubexp r)))
  end.

(** The denotation of a regular expression: the words it matches and the
    captures of each way of matching. *)
Inductive matches : re → list ascii → caps → Prop :=
| matches_eps : matches Eps [] []
| matches_chr p c : p c = true → matches (Chr p) [c] []
| matches_cat r1 r2 w1 w2 c1 c2 :
    matches r1 w1 c1 → matches r2 w2 c2 →
    matches (Cat r1 r2) (w1 ++ w2) (c1 ++ c2)
| matches_star_nil r : matches (Star r) [] []
| matches_star_cons r w1 w2 c1 c2 :
    w1 ≠ [] → matches r w1 c1 → matches (Star r) w2 c2 →
    matches (Star r) (w1 ++ w2) (c1 ++ c2)
| matches_upto_nil n r : matches (Upto n r) [] []
| matches_upto_cons n r w1 w2 c1 c2 :
    matches r w1 c1 → matches (Upto n r) w2 c2 →
    matches (Upto (S n) r) (w1 ++ w2) (c1 ++ c2)
| matches_group i r w c :
    matches r w c → matches (Group i r) w (c ++ [(i, w)]).

End Regexp.

Import Regexp.

(** ** The manifest URL pattern *)

Definition in_range (lo hi c : ascii) : bool :=
  bool_decide (nat_of_ascii lo ≤ nat_of_ascii c ≤ nat_of_ascii hi)%nat.

(** [[a-z0-9]] *)
Definition is_alnum (c : ascii) : bool :=
  in_range "a" "z" c || in_range "0" "9" c.

(** [[._-]] *)
Definition is_sep (c : ascii) : bool :=
  Ascii.eqb c "." || Ascii.eqb c "_" || Ascii.eqb c "-".

(** [\w], which in Go is [[0-9A-Za-z_]] *)
Definition is_word (c : ascii) : bool :=
  in_range "0" "9" c || in_range "A" "Z" c || in_range "a" "z" c
  || Ascii.eqb c "_".

(** [[\w.:-]] *)
Definition is_refchar (c : ascii) : bool :=
  is_word c || Ascii.eqb c "." || Ascii.eqb c ":" || Ascii.eqb c "-".

(** [[a-z0-9]+(?:[._-][a-z0-9]+)*] *)
Definition token_re : re :=
  Cat (Plus (Chr is_alnum)) (Star (Cat (Chr is_sep) (Plus (Chr is_alnum)))).

(** [manifestURLPattern]:
    [^/v2/((?:[a-z0-9]+(?:[._-][a-z0-9]+)*/)+)manifests/([\w][\w.:-]{0,127})]
    The leading [^] is accounted for by [FindStringSubmatch]. *)
Definition manifestURLPattern : re :=
  Cat (Lit (chars "/v2/"))
 (Cat (Group 1 (Plus (Cat token_re (Chr (Ascii.eqb "/")))))
 (Cat (Lit (chars "manifests/"))
      (Group 2 (Cat (Chr is_word) (Upto 127 (Chr is_refchar)))))).

Definition MethodGet : string := "GET".

(** imageInfo, the image descriptor a matched request carries. *)
Record imageInfo := mkImageInfo {
  repository : string;
  tag : string;
  projectName : string;
  digest : string;
}.

(** The part of *http.Request the interceptors read: method, URL path and
    the value stored in the context under [imageInfoCtxKey] ([None] when
    there is none; only this package can store one, the key type being
    private to it). *)
Record Request := mkRequest {
  Method : string;
  Path : string;
  ImageInfo : option imageInfo;
}.

(** MatchPullManifest checks if the request looks like a request to pull
    manifest; if it is, the image and the tag or digest are the second and
    third results.  A match is a slice of length 3. *)
Definition MatchPullManifest (req : Request) : bool * string * string :=
  if negb (String.eqb (Method req) MethodGet) then (false, "", "")
  else
    match FindStringSubmatch manifestURLPattern (Path req) with
    | Some [s0; s1; s2] => (true, TrimSuffix s1 "/", s2)
    | _ => (false, "", "")
    end.

(** ** JSON encoding (encoding/json, for the one struct marshalled here) *)

Inductive json : Type :=
| JInt (n : Z)
| JStr (s : string).

Definition dquote : ascii := "034"%char.
Definition backslash : ascii := "092"%char.

Definition hex_digit (n : nat) : ascii :=
  nth n (chars "0123456789abcdef") "0"%char.

(** One character of a JSON string literal, with the escapes of Go's
    encoder (HTML escaping on).  Characters outside ASCII are copied: the
    text is taken to be valid UTF-8 without U+2028 and U+2029. *)
Definition json_escape_char (c : ascii) : list ascii :=
  let n := nat_of_ascii c in
  if decide (c = dquote) then [backslash; dquote]
  else if decide (c = backslash) then [backslash; backslash]
  else if decide (n = 10) then backslash :: chars "n"
  else if decide (n = 13) then backslash :: chars "r"
  else if decide (n = 9) then backslash :: chars "t"
  else if decide (n < 32 ∨ c = "<"%char ∨ c = ">"%char ∨ c = "&"%char)%nat
       then backslash :: chars "u00" ++ [hex_digit (n / 16); hex_digit (n mod 16)]
  else [c].

Definition json_string (s : string) : string :=
  str (dquote :: (chars s ≫= json_escape_char) ++ [dquote]).

Fixpoint join (sep : string) (l : list string) : string :=
  match l with
  | [] => ""
  | [x] => x
  | x :: l' => x +:+ sep +:+ join sep l'
  end.

Definition json_encode (j : json) : string :=
  match j with
  | JInt n => pretty n
  | JStr s => json_string s
  end.

(** A JSON object with the given members, in order. *)
Definition json_object (fields : list (string * json)) : string :=
  "{" +:+ join "," ((λ kv, json_string kv.1 +:+ ":" +:+ json_encode kv.2) <$> fields)
  +:+ "}".

(** JSONError wraps a concrete Code and Message; its fields are Code,
    Message and Details. *)
Record JSONError := mkJSONError {
  je_Code : Z;
  je_Message : string;
  je_Details : string;
}.

(** The JSON value of a JSONError: every field is tagged omitempty. *)
Definition JSONError_fields (je : JSONError) : list (string * json) :=
     ((if decide (je_Code je = 0%Z) then [] else [("code", JInt (je_Code je))])
     ++ (if decide (je_Message je = "") then [] else [("message", JStr (je_Message je))])
     ++ (if decide (je_Details je = "") then [] else [("details", JStr (je_Details je))])).

Definition error := string.

(** json.Marshal on a *JSONError; it has no failing case for this type. *)
Definition json_Marshal (je : JSONError) : string * option error :=
  (json_object (JSONError_fields je), None).

(** marshalError *)
Definition marshalError (msg : string) (statusCode : Z) : string :=
  let je := {| je_Message := msg; je_Code := statusCode; je_Details := msg |} in
  match json_Marshal je with
  | (_, Some _) => msg
  | (s, None) => s
  end.

(** ** Response writers, the package state and the handler monad *)

Definition StatusOK : Z := 200.
Definition StatusBadRequest : Z := 400.
Definition StatusPreconditionFailed : Z := 412.
Definition StatusInternalServerError : Z := 500.

(** An http.ResponseWriter, be it the client's or an
    httptest.ResponseRecorder: the live header map, whether the status
    line went out, the status code, the headers as they went out with it,
    and the body written so far. *)
Record ResponseWriter := mkResponseWriter {
  HeaderMap : gmap string (list string);
  wroteHeader : bool;
  Code : Z;
  snapHeader : gmap string (list string);
  Body : string;
}.

(** What httptest.NewRecorder returns. *)
Definition newRecorder : ResponseWriter :=
  {| HeaderMap := ∅; wroteHeader := false; Code := 200; snapHeader := ∅;
     Body := "" |}.

(** rec.Result().StatusCode *)
Definition Result_StatusCode (w : ResponseWriter) : Z :=
  if decide (Code w = 0%Z) then 200%Z else Code w.

(** Header.Get on a key already in canonical form. *)
Definition Header_Get (h : gmap string (list string)) (key : string) : string :=
  match h !! key with
  | Some (v :: _) => v
  | _ => ""
  end.

(** Calls that leave the package. *)
Inductive Event : Type :=
| EvGetenv (key : string)
| EvProjectGet (name : string)
| EvGetInternalTargets (endpoint username repo : string)
| EvGetImgScanOverview (digest : string).

(** The state handlers share: the heap of response writers (a pointer is
    an index into it), the package variable [rec] ([None] is nil) and the
    calls made so far, oldest first. *)
Record State := mkState {
  writers : list ResponseWriter;
  rec : option nat;
  trace : list Event;
}.

(** A computation either panics ([None]) or returns a value and a state. *)
Definition M (A : Type) : Type := State → option (A * State).

Definition ret {A} (a : A) : M A := λ st, Some (a, st).

Definition bind {A B} (m : M A) (k : A → M B) : M B :=
  λ st, match m st with
        | Some (a, st') => k a st'
        | None => None
        end.

Definition panic {A} : M A := λ _, None.

Global Instance M_ret : MRet M := @ret.
Global Instance M_bind : MBind M := λ A B k m, bind m k.

Definition emit (e : Event) : M unit :=
  λ st, Some (tt, {| writers := writers st; rec := rec st;
                     trace := trace st ++ [e] |}).

Definition get_rec : M (option nat) := λ st, Some (rec st, st).

Definition set_rec (p : option nat) : M unit :=
  λ st, Some (tt, {| writers := writers st; rec := p; trace := trace st |}).

(** Allocate a writer; the result is the pointer to it. *)
Definition alloc (w : ResponseWriter) : M nat :=
  λ st, Some (length (writers st),
              {| writers := writers st ++ [w]; rec := rec st;
                 trace := trace st |}).

(** Read through a pointer; nil and dangling pointers panic. *)
Definition load (p : option nat) : M ResponseWriter :=
  λ st, match p with
        | Some l => match writers st !! l with
                    | Some w => Some (w, st)
                    | None => None
                    end
        | None => None
        end.

Definition store (l : nat) (w : ResponseWriter) : M unit :=
  λ st, Some (tt, {| writers := <[l := w]> (writers st); rec := rec st;
                     trace := trace st |}).

(** Apply [f] to the writer behind a pointer. *)
Definition update (rw : nat) (f : ResponseWriter → ResponseWriter) : M unit :=
  w ← load (Some rw); store rw (f w).

(** [w.Header().Set(key, value)], for a key in canonical form *)
Definition setHeader (w : ResponseWriter) (key value : string) : ResponseWriter :=
  {| HeaderMap := <[key := [value]]> (HeaderMap w);
     wroteHeader := wroteHeader w; Code := Code w;
     snapHeader := snapHeader w; Body := Body w |}.

(** [w.WriteHeader(code)]: only the first call sets the status and fixes
    the headers that go out. *)
Definition writeHeader (w : ResponseWriter) (code : Z) : ResponseWriter :=
  if wroteHeader w then w
  else {| HeaderMap := HeaderMap w; wroteHeader := true; Code := code;
          snapHeader := HeaderMap w; Body := Body w |}.

(** [w.Write(data)]: an implicit WriteHeader(200) if none came before.
    (The Content-Type a writer then sniffs from the data is left out; this
    package calls WriteHeader before every Write of its own.) *)
Definition write (w : ResponseWriter) (data : string) : ResponseWriter :=
  let w' := writeHeader w StatusOK in
  {| HeaderMap := HeaderMap w'; wroteHeader := wroteHeader w';
     Code := Code w'; snapHeader := snapHeader w';
     Body := Body w' +:+ data |}.

Definition Header_Set (rw : nat) (key value : string) : M unit :=
  update rw (λ w, setHeader w key value).

Definition WriteHeader (rw : nat) (code : Z) : M unit :=
  update rw (λ w, writeHeader w code).

Definition Write (rw : nat) (data : string) : M unit :=
  update rw (λ w, write w data).

Definition newline : string := String "010"%char "".

(** http.Error *)
Definition http_Error (rw : nat) (err : string) (code : Z) : M unit :=
  Header_Set rw "Content-Type" "text/plain; charset=utf-8";;
  Header_Set rw "X-Content-Type-Options" "nosniff";;
  WriteHeader rw code;;
  Write rw (err +:+ newline).

(** [for k, v := range src { dst.Header()[k] = v }] *)
Definition copyHeaders (src : gmap string (list string)) (dst : ResponseWriter)
    : ResponseWriter :=
  {| HeaderMap := map_fold (λ k v h, <[k := v]> h) (HeaderMap dst) src;
     wroteHeader := wroteHeader dst; Code := Code dst;
     snapHeader := snapHeader dst; Body := Body dst |}.

(** copyResp: every header of the recorder is assigned into the writer's
    header map, then the status and the body are written. *)
Definition copyResp (r : option nat) (rw : nat) : M unit :=
  src ← load r;
  update rw (copyHeaders (HeaderMap src));;
  src ← load r;
  WriteHeader rw (Result_StatusCode src);;
  src ← load r;
  Write rw (Body src).

Definition Handler : Type := nat → Request → M unit.

(** ** Collaborators outside the package *)

(** models.Severity is an int64. *)
Definition Severity : Type := Z.

(** The fields of models.Project the policy checker reads. *)
Record Project := mkProject {
  EnableContentTrust : bool;
  PreventVulnerableImagesFromRunning : bool;
  PreventVulnerableImagesFromRunningSeverity : string;
}.

(** projectmanager.ProjectManager: Get returns a *Project and an error. *)
Record ProjectManager := mkProjectManager {
  pm_Get : string → option Project * option error;
}.

(** notary.Target: this package reads the Tag and hands the whole value to
    notary.DigestFromTarget; Hashes stands for the rest of it. *)
Record Target := mkTarget {
  Tag : string;
  Hashes : list (string * string);
}.

(** models.ImgScanOverview: Sev is an int. *)
Record ImgScanOverview := mkImgScanOverview {
  Sev : Z;
}.

(** Configuration and the functions of other packages, which this package
    only calls: config, os, clair, models, notary and dao. *)
Record Env := mkEnv {
  RegistryProxyPrefix : string;
  WithNotary : bool;
  WithClair : bool;
  WithAdmiral : bool;
  InternalNotaryEndpoint : string;
  GlobalProjectMgr : ProjectManager;
  Getenv : string → string;
  ParseClairSev : string → Severity;
  SevUnknown : Severity;
  (** the [%q] rendering of a models.Severity *)
  Severity_q : Severity → string;
  GetInternalTargets : string → string → string → list Target * option error;
  DigestFromTarget : Target → string * option error;
  GetImgScanOverview : string → option ImgScanOverview * option error;
}.

Definition tokenUsername : string := "harbor-ui".

(** NotaryEndpoint, initialised from config.InternalNotaryEndpoint() *)
Definition NotaryEndpoint (E : Env) : string := InternalNotaryEndpoint E.

(** ** Policy checkers *)

(** policyChecker checks the policy of a project by project name. *)
Class policyChecker (T : Type) := {
  contentTrustEnabled : T → string → M bool;
  vulnerablePolicy : T → string → M (bool * Severity);
}.

(** envPolicyChecker, with the environment it reads *)
Record envPolicyChecker := mkEnvPolicyChecker { ec_env : Env }.

Definition os_Getenv (E : Env) (key : string) : M string :=
  emit (EvGetenv key);; mret (Getenv E key).

Global Instance envPolicyChecker_policyChecker : policyChecker envPolicyChecker := {
  contentTrustEnabled ec name :=
    v ← os_Getenv (ec_env ec) "PROJECT_CONTENT_TRUST";
    mret (String.eqb v "1");
  vulnerablePolicy ec name :=
    v ← os_Getenv (ec_env ec) "PROJECT_VULNERABLE";
    s ← os_Getenv (ec_env ec) "PROJECT_SEVERITY";
    mret (String.eqb v "1", ParseClairSev (ec_env ec) s);
}.

Record pmsPolicyChecker := mkPmsPolicyChecker {
  pc_env : Env;
  pm : ProjectManager;
}.

(** [pc.pm.Get(name)] *)
Definition project_Get (p : ProjectManager) (name : string)
    : M (option Project * option error) :=
  emit (EvProjectGet name);; mret (pm_Get p name).

(** Reading a field through a *Project: a nil pointer panics. *)
Definition deref {A} (p : option A) : M A :=
  match p with
  | Some a => mret a
  | None => panic
  end.

Global Instance pmsPolicyChecker_policyChecker : policyChecker pmsPolicyChecker := {
  contentTrustEnabled pc name :=
    '(project, err) ← project_Get (pm pc) name;
    match err with
    | Some _ => mret true
    | None => p ← deref project; mret (EnableContentTrust p)
    end;
  vulnerablePolicy pc name :=
    '(project, err) ← project_Get (pm pc) name;
    match err with
    | Some _ => mret (true, SevUnknown (pc_env pc))
    | None =>
        p ← deref project;
        mret (PreventVulnerableImagesFromRunning p,
              ParseClairSev (pc_env pc) (PreventVulnerableImagesFromRunningSeverity p))
    end;
}.

(** newPMSPolicyChecker *)
Definition newPMSPolicyChecker (E : Env) (p : ProjectManager) : pmsPolicyChecker :=
  {| pc_env := E; pm := p |}.

(** EnvChecker is the instance of envPolicyChecker *)
Definition EnvChecker (E : Env) : envPolicyChecker := {| ec_env := E |}.

(** The value getPolicyChecker returns: one of the two implementations. *)
Inductive checker : Type :=
| PMSChecker (pc : pmsPolicyChecker)
| EnvPolicyChecker (ec : envPolicyChecker).

Global Instance checker_policyChecker : policyChecker checker := {
  contentTrustEnabled c name :=
    match c with
    | PMSChecker pc => contentTrustEnabled pc name
    | EnvPolicyChecker ec => contentTrustEnabled ec name
    end;
  vulnerablePolicy c name :=
    match c with
    | PMSChecker pc => vulnerablePolicy pc name
    | EnvPolicyChecker ec => vulnerablePolicy ec name
    end;
}.

(** getPolicyChecker *)
Definition getPolicyChecker (E : Env) : checker :=
  if WithAdmiral E then PMSChecker (newPMSPolicyChecker E (GlobalProjectMgr E))
  else EnvPolicyChecker (EnvChecker E).

(** ** Handlers *)

Definition set_Path (req : Request) (p : string) : Request :=
  {| Method := Method req; Path := p; ImageInfo := ImageInfo req |}.

(** [req.WithContext(context.WithValue(req.Context(), imageInfoCtxKey, img))] *)
Definition WithImageInfo (req : Request) (img : imageInfo) : Request :=
  {| Method := Method req; Path := Path req; ImageInfo := Some img |}.

Definition DockerContentDigest : string := "Docker-Content-Digest".

(** urlHandler.ServeHTTP up to its last statement.  The result is [None]
    where the Go code returns early, and otherwise the request the last
    statement passes to the next handler. *)
Definition urlHandler_intercept (E : Env) (next : Handler)
    (rw : nat) (req : Request) : M (option Request) :=
  let req := set_Path req (TrimPrefix (Path req) (RegistryProxyPrefix E)) in
  let '(flag, repository, tag) := MatchPullManifest req in
  if flag then
    let components := SplitN repository "/" 2 in
    if decide (length components < 2)%nat then
      http_Error rw
        (marshalError ("Bad repository name: " +:+ repository)
           StatusInternalServerError)
        StatusBadRequest;;
      mret None
    else
      r ← alloc newRecorder;
      set_rec (Some r);;
      r ← get_rec;
      p ← deref r;
      next p req;;
      r ← get_rec;
      w ← load r;
      if decide (Result_StatusCode w ≠ StatusOK) then
        r ← get_rec;
        copyResp r rw;;
        mret None
      else
        r ← get_rec;
        w ← load r;
        let digest := Header_Get (HeaderMap w) DockerContentDigest in
        let img := {| repository := repository; tag := tag;
                      projectName := default "" (head components);
                      digest := digest |} in
        mret (Some (WithImageInfo req img))
  else mret (Some req).

(** urlHandler.ServeHTTP *)
Definition urlHandler_ServeHTTP (E : Env) (next : Handler) : Handler :=
  λ rw req,
    o ← urlHandler_intercept E next rw req;
    match o with
    | Some req' => next rw req'
    | None => mret tt
    end.

(** The loop of matchNotaryDigest over the targets. *)
Fixpoint matchTargets (E : Env) (img : imageInfo) (targets : list Target)
    : bool * option error :=
  match targets with
  | [] => (false, None)
  | t :: targets' =>
      if String.eqb (Tag t) (tag img) then
        let '(d, err) := DigestFromTarget E t in
        match err with
        | Some e => (false, Some e)
        | None => (String.eqb (digest img) d, None)
        end
      else matchTargets E img targets'
  end.

(** matchNotaryDigest *)
Definition matchNotaryDigest (E : Env) (img : imageInfo)
    : M (bool * option error) :=
  emit (EvGetInternalTargets (NotaryEndpoint E) tokenUsername (repository img));;
  let '(targets, err) :=
    GetInternalTargets E (NotaryEndpoint E) tokenUsername (repository img) in
  match err with
  | Some e => mret (false, Some e)
  | None => mret (matchTargets E img targets)
  end.

(** contentTrustHandler.ServeHTTP *)
Definition contentTrustHandler_ServeHTTP (E : Env) (next : Handler) : Handler :=
  λ rw req,
    match ImageInfo req with
    | None => next rw req
    | Some img =>
        if negb (WithNotary E) then next rw req
        else
          enabled ← contentTrustEnabled (getPolicyChecker E) (projectName img);
          if negb enabled then next rw req
          else
            '(match_, err) ← matchNotaryDigest E img;
            match err with
            | Some _ =>
                http_Error rw
                  (marshalError
                     "Failed in communication with Notary please check the log"
                     StatusInternalServerError)
                  StatusInternalServerError
            | None =>
                if negb match_ then
                  http_Error rw
                    (marshalError "The image is not signed in Notary."
                       StatusPreconditionFailed)
                    StatusPreconditionFailed
                else next rw req
            end
    end.

(** [dao.GetImgScanOverview(digest)] *)
Definition dao_GetImgScanOverview (E : Env) (d : string)
    : M (option ImgScanOverview * option error) :=
  emit (EvGetImgScanOverview d);; mret (GetImgScanOverview E d).

(** The message of the severity denial. *)
Definition severityMessage (E : Env) (imageSev : Z) (threshold : Severity) : string :=
  "The severity of vulnerability of the image: " +:+ Severity_q E imageSev
  +:+ " is equal or higher than the threshold in project setting: "
  +:+ Severity_q E threshold +:+ ".".

(** vulnerableHandler.ServeHTTP *)
Definition vulnerableHandler_ServeHTTP (E : Env) (next : Handler) : Handler :=
  λ rw req,
    match ImageInfo req with
    | None => next rw req
    | Some img =>
        if negb (WithClair E) then next rw req
        else
          '(projectVulnerableEnabled, projectVulnerableSeverity) ←
            vulnerablePolicy (getPolicyChecker E) (projectName img);
          if negb projectVulnerableEnabled then next rw req
          else
            '(overview, err) ← dao_GetImgScanOverview E (digest img);
            match err with
            | Some _ =>
                http_Error rw
                  (marshalError "Failed to get ImgScanOverview."
                     StatusPreconditionFailed)
                  StatusPreconditionFailed
            | None =>
                match overview with
                | None =>
                    http_Error rw
                      (marshalError "Cannot get the image scan overview info."
                         StatusPreconditionFailed)
                      StatusPreconditionFailed
                | Some ov =>
                    let imageSev := Sev ov in
                    if Z.geb imageSev projectVulnerableSeverity then
                      http_Error rw
                        (marshalError
                           (severityMessage E imageSev projectVulnerableSeverity)
                           StatusPreconditionFailed)
                        StatusPreconditionFailed
                    else next rw req
                end
            end
    end.

(** funnelHandler.ServeHTTP *)
Definition funnelHandler_ServeHTTP (next : Handler) : Handler :=
  λ rw req,
    match ImageInfo req with
    | Some _ => r ← get_rec; copyResp r rw
    | None => next rw req
    end.

(** ** Vocabulary of the statements *)

Definition set_writers (st : State) (ws : list ResponseWriter) : State :=
  {| writers := ws; rec := rec st; trace := trace st |}.

Definition add_trace (st : State) (evs : list Event) : State :=
  {| writers := writers st; rec := rec st; trace := trace st ++ evs |}.

(** The error body of the specification: a JSON object
    {code, message, details}. *)
Definition errorBody (code : Z) (message : string) : string :=
  json_object [("code", JInt code); ("message", JStr message);
               ("details", JStr message)].

(** The writer http.Error leaves behind. *)
Definition errorResponse (w : ResponseWriter) (err : string) (code : Z)
    : ResponseWriter :=
  write
    (writeHeader
       (setHeader (setHeader w "Content-Type" "text/plain; charset=utf-8")
          "X-Content-Type-Options" "nosniff")
       code)
    (err +:+ newline).

(** The writer copyResp leaves behind when it replays [src] into [dst]. *)
Definition replayed (src dst : ResponseWriter) : ResponseWriter :=
  write (writeHeader (copyHeaders (HeaderMap src) dst) (Result_StatusCode src))
    (Body src).

(** The outcome of a policy stage (PolicyDecision in the specification). *)
Inductive PolicyDecision : Type :=
| Continue
| Deny (status : Z) (message : string)
| Fail (status : Z) (message : string).

(** What a stage does with its decision: hand the request on, or answer
    with the error body and stop. *)
Definition settle (d : PolicyDecision) (next : Handler) : Handler :=
  λ rw req,
    match d with
    | Continue => next rw req
    | Deny status message | Fail status message =>
        http_Error rw (marshalError message status) status
    end.

(** Events of a tenant policy lookup, as opposed to queries of the trust
    subsystem or of the scan store. *)
Definition policy_event (e : Event) : Prop :=
  match e with
  | EvGetenv _ | EvProjectGet _ => True
  | _ => False
  end.

(** The first target in list order that carries the reference as its tag. *)
Definition first_tagged (reference : string) (targets : list Target)
    : option Target :=
  head (filter (λ t, Tag t = reference) targets).

Definition msgNotary : string :=
  "Failed in communication with Notary please check the log".
Definition msgNotSigned : string := "The image is not signed in Notary.".
Definition msgScanFailed : string := "Failed to get ImgScanOverview.".
Definition msgNoScan : string := "Cannot get the image scan overview info.".

(** The state in which the next handler is called to fill the recorder:
    a new recorder at the end of the heap and [rec] pointing to it. *)
Definition buffering (st : State) : State :=
  {| writers := writers st ++ [newRecorder];
     rec := Some (length (writers st));
     trace := trace st |}.

(** The state a stage leaves when it answers with an error body. *)
Definition denied (st : State) (rw : nat) (w : ResponseWriter)
    (code : Z) (message : string) : State :=
  set_writers st (<[rw := errorResponse w (errorBody code message) code]> (writers st)).

(** The decision of the content trust stage once it asks the trust
    subsystem. *)
Definition contentTrustDecision (E : Env) (img : imageInfo) : PolicyDecision :=
  match GetInternalTargets E (NotaryEndpoint E) tokenUsername (repository img) with
  | (_, Some _) => Fail StatusInternalServerError msgNotary
  | (targets, None) =>
      match first_tagged (tag img) targets with
      | None => Deny StatusPreconditionFailed msgNotSigned
      | Some t =>
          match DigestFromTarget E t with
          | (_, Some _) => Fail StatusInternalServerError msgNotary
          | (d, None) =>
              if String.eqb (digest img) d then Continue
              else Deny StatusPreconditionFailed msgNotSigned
          end
      end
  end.

(** ** The request matcher as the specification words it

    A path [/v2/<segments>/manifests/<reference>]: one or more tokens
    joined by [/], each matching [[a-z0-9]+([._-][a-z0-9]+)*], and a
    reference of 1 to 128 characters drawn from [[\w][\w.:-]*]. *)

Definition is_token (t : string) : Prop := matches token_re (chars t) [].

Definition reference_re : re := Cat (Chr is_word) (Star (Chr is_refchar)).

Definition is_reference (r : string) : Prop :=
  (1 ≤ String.length r ≤ 128)%nat ∧ matches reference_re (chars r) [].

Definition manifest_path (segments : list string) (reference : string) : string :=
  "/v2/" +:+ join "/" segments +:+ "/manifests/" +:+ reference.

(** The path has exactly that form. *)
Definition is_manifest_path (p : string) : Prop :=
  ∃ segments reference,
    segments ≠ [] ∧ Forall is_token segments ∧ is_reference reference ∧
    p = manifest_path segments reference.

(** The path begins with that form; anything may follow. *)
Definition has_manifest_prefix (p : string) : Prop :=
  ∃ segments reference rest,
    segments ≠ [] ∧ Forall is_token segments ∧ is_reference reference ∧
    p = manifest_path segments reference +:+ rest.

(** Regular expressions without capture groups. *)
Fixpoint groupless (r : re) : bool :=
  match r with
  | Eps | Chr _ => true
  | Cat r1 r2 => groupless r1 && groupless r2
  | Star r1 | Upto _ r1 => groupless r1
  | Group _ _ => false
  end.

Definition GET (p : string) : Request := mkRequest "GET" p None.

(** Unfold the monad of the handlers. *)
Ltac munfold := unfold mbind, M_bind, mret, M_ret, bind, ret in *.

(** ** The chain and two requests in flight *)

(** Modelled from the spec: the code that chains the handlers in front of
    the registry is outside this file; the order is the control flow of
    the specification (request matching and buffering, then content
    trust, vulnerability and release).  These are the stages that follow
    urlHandler. *)
Definition policyStages (E : Env) (backend : Handler) : Handler :=
  contentTrustHandler_ServeHTTP E
    (vulnerableHandler_ServeHTTP E (funnelHandler_ServeHTTP backend)).

(** Modelled from the spec: the whole chain, urlHandler first. *)
Definition chain (E : Env) (backend : Handler) : Handler :=
  urlHandler_ServeHTTP E (policyStages E backend).

(** Two requests served at once, each by its own goroutine: the first is
    preempted before the last statement of urlHandler.ServeHTTP, the
    second runs up to the same statement, then each finishes. *)
Definition interleaved (E : Env) (backend : Handler)
    (rwA : nat) (reqA : Request) (rwB : nat) (reqB : Request) : M unit :=
  a ← urlHandler_intercept E (policyStages E backend) rwA reqA;
  b ← urlHandler_intercept E (policyStages E backend) rwB reqB;
  match a with
  | Some reqA' => policyStages E backend rwA reqA'
  | None => mret tt
  end;;
  match b with
  | Some reqB' => policyStages E backend rwB reqB'
  | None => mret tt
  end.

(** ** A concrete deployment, for the examples *)

Definition assoc (l : list (string * string)) (key : string) : string :=
  default "" (snd <$> head (filter (λ kv, kv.1 = key) l)).

(** An example of notary.DigestFromTarget: the digest is the sha256 hash. *)
Definition sha256Digest (t : Target) : string * option error :=
  match head (filter (λ kv, kv.1 = "sha256") (Hashes t)) with
  | Some kv => ("sha256:" +:+ kv.2, None)
  | None => ("", Some "no valid hash, expecting sha256")
  end.

(** An example of clair.ParseClairSev over the levels 1 to 5. *)
Definition parseSev (s : string) : Severity :=
  if decide (s = "negligible") then 1%Z
  else if decide (s = "low") then 3%Z
  else if decide (s = "medium") then 4%Z
  else if decide (s = "high") then 5%Z
  else 2%Z.

Record Deployment := mkDeployment {
  d_notary : bool;
  d_clair : bool;
  d_admiral : bool;
  d_projects : string → option Project * option error;
  d_environ : list (string * string);
  d_targets : list Target * option error;
  d_overview : option ImgScanOverview * option error;
}.

Definition deploy (d : Deployment) : Env := {|
  RegistryProxyPrefix := "/registryproxy";
  WithNotary := d_notary d;
  WithClair := d_clair d;
  WithAdmiral := d_admiral d;
  InternalNotaryEndpoint := "http://notary-server:4443";
  GlobalProjectMgr := {| pm_Get := d_projects d |};
  Getenv := assoc (d_environ d);
  ParseClairSev := parseSev;
  SevUnknown := 2%Z;
  Severity_q := λ z, pretty z;
  GetInternalTargets := λ _ _ _, d_targets d;
  DigestFromTarget := sha256Digest;
  GetImgScanOverview := λ _, d_overview d;
|}.

(** No policy is enforced. *)
Definition openDeployment : Deployment := {|
  d_notary := false; d_clair := false; d_admiral := false;
  d_projects := λ _, (None, Some "unreachable");
  d_environ := [];
  d_targets := ([], None);
  d_overview := (None, None);
|}.

(** A registry that answers every request with a manifest naming the path
    it was asked for. *)
Definition echoRegistry : Handler := λ rw req,
  Header_Set rw DockerContentDigest ("sha256:" +:+ Path req);;
  WriteHeader rw StatusOK;;
  Write rw ("manifest of " +:+ Path req).

(** A registry that does not have the manifest. *)
Definition emptyRegistry : Handler := λ rw req,
  WriteHeader rw 404;;
  Write rw "manifest unknown".

(** A client connection that has nothing written to it yet. *)
Definition freshWriter : ResponseWriter :=
  {| HeaderMap := ∅; wroteHeader := false; Code := 0; snapHeader := ∅;
     Body := "" |}.

(** One connection open, [rec] still nil, nothing called. *)
Definition oneClient : State :=
  {| writers := [freshWriter]; rec := None; trace := [] |}.

(** Two connections open. *)
Definition twoClients : State :=
  {| writers := [freshWriter; freshWriter]; rec := None; trace := [] |}.

(** What went out on a connection: status, headers and body. *)
Definition sent (o : option (unit * State)) (rw : nat)
    : option (Z * list (string * list string) * string) :=
  '(_, st) ← o;
  w ← writers st !! rw;
  Some (Code w, map_to_list (snapHeader w), Body w).

Definition imgOf (repo ref project dig : string) : imageInfo :=
  {| repository := repo; tag := ref; projectName := project; digest := dig |}.

(** Content trust is enforced through the environment; the targets are
    the ones signed for the repository. *)
Definition trustDeployment (targets : list Target) : Deployment := {|
  d_notary := true; d_clair := false; d_admiral := false;
  d_projects := λ _, (None, Some "unreachable");
  d_environ := [("PROJECT_CONTENT_TRUST", "1")];
  d_targets := (targets, None);
  d_overview := (None, None);
|}.

(** Vulnerability enforcement through the environment, with the given
    threshold and the given answer of the scan store. *)
Definition scanDeployment (threshold : string)
    (overview : option ImgScanOverview * option error) : Deployment := {|
  d_notary := false; d_clair := true; d_admiral := false;
  d_projects := λ _, (None, Some "unreachable");
  d_environ := [("PROJECT_VULNERABLE", "1"); ("PROJECT_SEVERITY", threshold)];
  d_targets := ([], None);
  d_overview := overview;
|}.

Definition signed (t h : string) : Target :=
  {| Tag := t; Hashes := [("sha256", h)] |}.

Definition unhashed (t : string) : Target := {| Tag := t; Hashes := [] |}.

(** A request that already carries its image descriptor. *)
Definition pulling (img : imageInfo) : Request :=
  {| Method := "GET";
     Path := "/v2/" +:+ repository img +:+ "/manifests/" +:+ tag img;
     ImageInfo := Some img |}.

(** ** Further vocabulary *)

(** Every character class of a regular expression lies within [P]. *)
Fixpoint classes_within (P : ascii → Prop) (r : re) : Prop :=
  match r with
  | Eps => True
  | Chr p => ∀ a, p a = true → P a
  | Cat r1 r2 => classes_within P r1 ∧ classes_within P r2
  | Star r1 | Upto _ r1 | Group _ r1 => classes_within P r1
  end.

Definition slash : ascii := "/"%char.

(** A registry that answers 200 without a Docker-Content-Digest header. *)
Definition plainRegistry : Handler := λ rw req,
  WriteHeader rw StatusOK;;
  Write rw "manifest".

(** A project manager that knows no project: Get returns nil and no
    error. *)
Definition emptyProjects : string → option Project * option error :=
  λ _, (None, None).

(** A deployment that takes its policies from the project manager. *)
Definition admiralDeployment
    (projects : string → option Project * option error) : Deployment := {|
  d_notary := true; d_clair := true; d_admiral := true;
  d_projects := projects;
  d_environ := [];
  d_targets := ([], None);
  d_overview := (None, None);
|}.

(** The word is not empty and its last character satisfies [p]. *)
Definition ends_with (p : ascii → bool) (w : list ascii) : Prop :=
  ∃ l b, w = l ++ [b] ∧ p b = true.

(** The word is not empty and its first character satisfies [p]. *)
Definition starts_with (p : ascii → bool) (w : list ascii) : Prop :=
  ∃ a l, w = a :: l ∧ p a = true.

(** ** The order of the search

    The entries of a search are in increasing order when each leaves a
    strictly longer rest than the ones before it: the search tries the
    longer matches first. *)
Fixpoint increasing (l : list (list ascii * caps)) : Prop :=
  match l with
  | [] => True
  | e :: l' => Forall (λ e', (length e.1 < length e'.1)%nat) l' ∧ increasing l'
  end.

(** The same entry with other captures. *)
Definition relabel (f : caps → caps) (e : list ascii * caps)
    : list ascii * caps :=
  (e.1, f e.2).

(** A search with at most one result, which reads at least a character. *)
Definition deterministic (f : list ascii → list (list ascii * caps)) : Prop :=
  ∀ s, (length (f s) ≤ 1)%nat ∧ Forall (λ e, (length e.1 < length s)%nat) (f s).

(** The entries are in the order [R]: each one is before all that follow
    it. *)
Fixpoint ordered {A} (R : A → A → Prop) (l : list A) : Prop :=
  match l with
  | [] => True
  | x :: l' => Forall (R x) l' ∧ ordered R l'
  end.

(** The length of the text of group [i] in a result of a search. *)
Definition group_length (i : nat) (e : list ascii * caps) : nat :=
  length (submatch e.2 i).

(** The preference between two results of the manifest pattern: the longer
    segment path first (group 1), and with the same segment path the
    longer match. *)
Definition preferred (e e' : list ascii * caps) : Prop :=
  (group_length 1 e' < group_length 1 e)%nat
  ∨ (group_length 1 e = group_length 1 e' ∧ (length e.1 < length e'.1)%nat).

(** Both policies are enforced through the environment. *)
Definition envDeployment (targets : list Target)
    (overview : option ImgScanOverview * option error) : Deployment := {|
  d_notary := true; d_clair := true; d_admiral := false;
  d_projects := λ _, (None, Some "unreachable");
  d_environ := [("PROJECT_CONTENT_TRUST", "1"); ("PROJECT_VULNERABLE", "true");
                ("PROJECT_SEVERITY", "high")];
  d_targets := (targets, None);
  d_overview := overview;
|}.

(** One reading of a path as a manifest pull: the path begins with
    /v2/<segments>/manifests/<reference>, the repository being the
    segments joined by slashes. *)
Definition manifest_reading (p repo ref : string) : Prop :=
  ∃ segs rest,
    segs ≠ [] ∧ Forall is_token segs ∧ is_reference ref ∧
    repo = join "/" segs ∧
    p = manifest_path segs ref +:+ rest.

(** * Properties *)

(** ** Strings and character lists *)

Lemma chars_app (a b : string) : chars (a +:+ b) = chars a ++ chars b.
Proof. induction a as [|c a IH]; simpl; [done | by rewrite IH]. Qed.

Lemma str_app (a b : list ascii) : str (a ++ b) = str a +:+ str b.
Proof. induction a as [|c a IH]; simpl; [done | by rewrite IH]. Qed.

Lemma str_chars (s : string) : str (chars s) = s.
Proof. apply string_of_list_ascii_of_string. Qed.

Lemma chars_str (l : list ascii) : chars (str l) = l.
Proof. apply list_ascii_of_string_of_list_ascii. Qed.

Lemma chars_inj (a b : string) : chars a = chars b → a = b.
Proof. intros H. rewrite <- (str_chars a), <- (str_chars b). by rewrite H. Qed.

Lemma length_chars (s : string) : length (chars s) = String.length s.
Proof. induction s as [|c s IH]; simpl; [done | by rewrite IH]. Qed.

(** ** The search order of [run] against the denotation [matches] *)

Section RegexpFacts.

Implicit Types (r : re) (s w rest : list ascii) (c : caps).

Lemma star_iter_sound r f :
  (∀ s rest c, (rest, c) ∈ f s → ∃ w, s = w ++ rest ∧ matches r w c) →
  ∀ fuel s rest c, (rest, c) ∈ star_iter f fuel s →
    ∃ w, s = w ++ rest ∧ matches (Star r) w c.
Proof.
  intros Hf fuel. induction fuel as [|fuel IH]; intros s rest c; simpl.
  - intros [= -> ->]%list_elem_of_singleton. exists []. split; [done | constructor].
  - rewrite elem_of_app, list_elem_of_bind.
    intros [([s1 c1] & Hin & H1) | [= -> ->]%list_elem_of_singleton].
    + destruct (decide (length s1 < length s)%nat) as [Hlt|]; [|by apply elem_of_nil in Hin].
      apply list_elem_of_bind in Hin as ([s2 c2] & [= -> ->]%list_elem_of_singleton & H2).
      apply Hf in H1 as (w1 & -> & Hw1).
      apply IH in H2 as (w2 & -> & Hw2).
      exists (w1 ++ w2). split; [by rewrite app_assoc|].
      constructor; [|done..].
      intros ->. simpl in Hlt. lia.
    + exists []. split; [done | constructor].
Qed.

Lemma upto_iter_sound r f :
  (∀ s rest c, (rest, c) ∈ f s → ∃ w, s = w ++ rest ∧ matches r w c) →
  ∀ n s rest c, (rest, c) ∈ upto_iter f n s →
    ∃ w, s = w ++ rest ∧ matches (Upto n r) w c.
Proof.
  intros Hf n. induction n as [|n IH]; intros s rest c; simpl.
  - intros [= -> ->]%list_elem_of_singleton. exists []. split; [done | constructor].
  - rewrite elem_of_app, list_elem_of_bind.
    intros [([s1 c1] & Hin & H1) | [= -> ->]%list_elem_of_singleton].
    + apply list_elem_of_bind in Hin as ([s2 c2] & [= -> ->]%list_elem_of_singleton & H2).
      apply Hf in H1 as (w1 & -> & Hw1).
      apply IH in H2 as (w2 & -> & Hw2).
      exists (w1 ++ w2). split; [by rewrite app_assoc|].
      by constructor.
    + exists []. split; [done | constructor].
Qed.

(** Every entry of [run r s] splits [s] into a word of [r] and the rest. *)
Lemma run_sound r s rest c :
  (rest, c) ∈ run r s → ∃ w, s = w ++ rest ∧ matches r w c.
Proof.
  revert s rest c. induction r as [|p|r1 IH1 r2 IH2|r IH|n r IH|i r IH];
    intros s rest c; simpl.
  - intros [= -> ->]%list_elem_of_singleton. exists []. split; [done | constructor].
  - destruct s as [|a s]; [by intros ?%elem_of_nil|].
    destruct (p a) eqn:Hp; [|by intros ?%elem_of_nil].
    intros [= -> ->]%list_elem_of_singleton. exists [a]. split; [done | by constructor].
  - intros ([s1 c1] & Hin & H1)%list_elem_of_bind.
    apply list_elem_of_bind in Hin as ([s2 c2] & [= -> ->]%list_elem_of_singleton & H2).
    apply IH1 in H1 as (w1 & -> & Hw1). apply IH2 in H2 as (w2 & -> & Hw2).
    exists (w1 ++ w2). split; [by rewrite app_assoc | by constructor].
  - by apply star_iter_sound.
  - by apply upto_iter_sound.
  - intros ([s1 c1] & [= -> ->]%list_elem_of_singleton & H1)%list_elem_of_bind.
    apply IH in H1 as (w & -> & Hw). exists w. split; [done|].
    rewrite length_app, Nat.add_sub, take_app_length. by constructor.
Qed.

Lemma star_iter_fuel f fuel s :
  (length s ≤ fuel)%nat → star_iter f fuel s = star_iter f (length s) s.
Proof.
  revert s. induction (lt_wf fuel) as [fuel _ IH]. intros s Hle.
  destruct fuel as [|fuel].
  { by replace (length s) with 0%nat by lia. }
  destruct (length s) as [|n] eqn:Hn; simpl.
  - rewrite (list_bind_ext _ (λ _, []) _ (f s)); [|intros [s1 c1]|done].
    + by induction (f s).
    + destruct (decide _); [lia | done].
  - f_equal. apply list_bind_ext; [|done]. intros [s1 c1].
    destruct (decide _) as [Hlt|]; [|done].
    rewrite (IH fuel), (IH n) by lia. done.
Qed.

(** Every way of matching a prefix of the text is an entry of [run]. *)
Lemma run_complete r w c :
  matches r w c → ∀ rest, (rest, c) ∈ run r (w ++ rest).
Proof.
  induction 1 as [|p a Hp|r1 r2 w1 w2 c1 c2 _ IH1 _ IH2| r
                 |r w1 w2 c1 c2 Hne _ IH1 _ IH2|n r
                 |n r w1 w2 c1 c2 _ IH1 _ IH2|i r w c _ IH]; intros rest; simpl.
  - apply list_elem_of_singleton; done.
  - rewrite Hp. by apply list_elem_of_singleton.
  - apply list_elem_of_bind. exists (w2 ++ rest, c1). split.
    + apply list_elem_of_bind. exists (rest, c2).
      split; [by apply list_elem_of_singleton | apply IH2].
    + rewrite <- app_assoc. apply IH1.
  - destruct (length rest); simpl; [by apply list_elem_of_singleton|].
    apply elem_of_app. right. by apply list_elem_of_singleton.
  - destruct (length ((w1 ++ w2) ++ rest)) as [|n] eqn:Hn.
    { destruct w1; [done | simpl in Hn; lia]. }
    simpl. apply elem_of_app. left.
    apply list_elem_of_bind. exists (w2 ++ rest, c1). split.
    + rewrite decide_True.
      2:{ rewrite <- app_assoc, !length_app. destruct w1; [done | simpl; lia]. }
      apply list_elem_of_bind. exists (rest, c2).
      split; [by apply list_elem_of_singleton|].
      rewrite star_iter_fuel.
      * apply IH2.
      * rewrite <- app_assoc, length_app in Hn. destruct w1; [done | simpl in Hn; lia].
    + rewrite <- app_assoc. apply IH1.
  - destruct n; simpl; [by apply list_elem_of_singleton|].
    apply elem_of_app. right. by apply list_elem_of_singleton.
  - apply elem_of_app. left.
    apply list_elem_of_bind. exists (w2 ++ rest, c1). split.
    + apply list_elem_of_bind. exists (rest, c2).
      split; [by apply list_elem_of_singleton | apply IH2].
    + rewrite <- app_assoc. apply IH1.
  - apply list_elem_of_bind. exists (rest, c). split; [|apply IH].
    rewrite length_app, Nat.add_sub, take_app_length.
    by apply list_elem_of_singleton.
Qed.

End RegexpFacts.

(** ** Inversion of [matches] *)

Section MatchesInversion.

Implicit Types (r : re) (w : list ascii) (c : caps).

Lemma matches_Eps_inv w c : matches Eps w c → w = [] ∧ c = [].
Proof. by inversion 1. Qed.

Lemma matches_Chr_inv p w c :
  matches (Chr p) w c → ∃ a, w = [a] ∧ p a = true ∧ c = [].
Proof. inversion 1; subst. eauto. Qed.

Lemma matches_Cat_inv r1 r2 w c :
  matches (Cat r1 r2) w c →
  ∃ w1 w2 c1 c2, w = w1 ++ w2 ∧ c = c1 ++ c2 ∧ matches r1 w1 c1 ∧ matches r2 w2 c2.
Proof. inversion 1; subst. eauto 10. Qed.

Lemma matches_Group_inv i r w c :
  matches (Group i r) w c → ∃ c', c = c' ++ [(i, w)] ∧ matches r w c'.
Proof. inversion 1; subst. eauto. Qed.

Lemma matches_cat_eq r1 r2 w1 w2 w c1 c2 c :
  matches r1 w1 c1 → matches r2 w2 c2 → w = w1 ++ w2 → c = c1 ++ c2 →
  matches (Cat r1 r2) w c.
Proof. intros ?? -> ->. by constructor. Qed.

Lemma matches_groupless r w c : groupless r = true → matches r w c → c = [].
Proof.
  intros Hg Hm. induction Hm; simpl in Hg; try done.
  - apply andb_true_iff in Hg as [??]. by rewrite IHHm1, IHHm2.
  - by rewrite IHHm1, IHHm2.
  - by rewrite IHHm1, IHHm2.
Qed.

Lemma matches_Lit l w c : matches (Lit l) w c ↔ w = l ∧ c = [].
Proof.
  revert w c. induction l as [|a l IH]; intros w c; simpl.
  - split; [apply matches_Eps_inv | intros [-> ->]; constructor].
  - split.
    + intros (w1 & w2 & c1 & c2 & -> & -> & H1 & H2)%matches_Cat_inv.
      apply matches_Chr_inv in H1 as (b & -> & Hb & ->).
      apply IH in H2 as [-> ->]. apply Ascii.eqb_eq in Hb as ->. done.
    + intros [-> ->]. apply (matches_cat_eq _ _ [a] l _ [] []); [| by apply IH | done..].
      constructor. apply Ascii.eqb_refl.
Qed.

Lemma matches_Star_Chr p w c :
  matches (Star (Chr p)) w c ↔ c = [] ∧ Forall (λ a, p a = true) w.
Proof.
  split.
  - intros H. remember (Star (Chr p)) as r eqn:Hr.
    induction H; try done; injection Hr as ->.
    apply matches_Chr_inv in H0 as (a & -> & Ha & ->).
    destruct IHmatches2 as [-> HF]; [done|]. split; [done|]. by constructor.
  - intros [-> HF]. induction HF as [|a w Ha _ IH]; [constructor|].
    change (matches (Star (Chr p)) ([a] ++ w) ([] ++ [])).
    constructor; [done | by constructor | done].
Qed.

Lemma matches_Upto_Chr n p w c :
  matches (Upto n (Chr p)) w c ↔
  c = [] ∧ (length w ≤ n)%nat ∧ Forall (λ a, p a = true) w.
Proof.
  split.
  - intros H. remember (Upto n (Chr p)) as r eqn:Hr. revert n Hr.
    induction H; try done; intros m [= <- ->].
    + split; [done|]. split; [simpl; lia | constructor].
    + apply matches_Chr_inv in H as (a & -> & Ha & ->).
      destruct (IHmatches2 _ eq_refl) as (-> & Hlen & HF).
      split; [done|]. split; [simpl; lia | by constructor].
  - intros (-> & Hlen & HF). revert n Hlen.
    induction HF as [|a w Ha _ IH]; intros n Hlen; [constructor|].
    destruct n as [|n]; [simpl in Hlen; lia|].
    change (matches (Upto (S n) (Chr p)) ([a] ++ w) ([] ++ [])).
    constructor; [by constructor|]. apply IH. simpl in Hlen. lia.
Qed.

End MatchesInversion.

(** ** The language of [manifestURLPattern] *)

Section Pattern.

Implicit Types (w : list ascii) (c : caps) (segs : list string).

Local Abbreviation slash := (Chr (Ascii.eqb "/")).
Local Abbreviation segment := (Cat token_re slash).

Lemma join_slash segs :
  segs ≠ [] →
  chars (join "/" segs) ++ chars "/"
  = concat ((λ t, chars t ++ chars "/") <$> segs).
Proof.
  induction segs as [|t segs IH]; [done|]. intros _.
  destruct segs as [|t' segs].
  - simpl. by rewrite app_nil_r.
  - change (join "/" (t :: t' :: segs)) with (t +:+ "/" +:+ join "/" (t' :: segs)).
    rewrite !chars_app, fmap_cons, concat_cons, <- IH by done.
    by rewrite <- !app_assoc.
Qed.

Lemma segment_inv w c :
  matches segment w c → ∃ t, is_token t ∧ w = chars t ++ chars "/" ∧ c = [].
Proof.
  intros (w1 & w2 & c1 & c2 & -> & -> & H1 & H2)%matches_Cat_inv.
  apply matches_Chr_inv in H2 as (a & -> & ->%Ascii.eqb_eq & ->).
  pose proof (matches_groupless token_re _ _ eq_refl H1) as ->.
  exists (str w1). unfold is_token. by rewrite chars_str.
Qed.

Lemma segment_intro t : is_token t → matches segment (chars t ++ chars "/") [].
Proof.
  intros Ht. apply (matches_cat_eq _ _ (chars t) (chars "/") _ [] []); try done.
  by constructor.
Qed.

Lemma segments_inv w c :
  matches (Star segment) w c →
  ∃ segs, Forall is_token segs ∧
    w = concat ((λ t, chars t ++ chars "/") <$> segs) ∧ c = [].
Proof.
  intros H. remember (Star segment) as r eqn:Hr.
  induction H; try done; injection Hr as ->.
  - by exists [].
  - apply segment_inv in H0 as (t & Ht & -> & ->).
    destruct IHmatches2 as (segs & Hsegs & -> & ->); [done|].
    exists (t :: segs). split; [by constructor | done].
Qed.

Lemma segments_intro segs :
  Forall is_token segs →
  matches (Star segment) (concat ((λ t, chars t ++ chars "/") <$> segs)) [].
Proof.
  induction 1 as [|t segs Ht _ IH]; [constructor|].
  rewrite fmap_cons, concat_cons.
  change (@nil (nat * list ascii)) with (@nil (nat * list ascii) ++ []).
  constructor; [by destruct (chars t) | by apply segment_intro | done].
Qed.

Lemma plus_segments w c :
  matches (Plus segment) w c ↔
  c = [] ∧ ∃ segs, segs ≠ [] ∧ Forall is_token segs ∧
    w = chars (join "/" segs) ++ chars "/".
Proof.
  unfold Plus. split.
  - intros (w1 & w2 & c1 & c2 & -> & -> & H1 & H2)%matches_Cat_inv.
    apply segment_inv in H1 as (t & Ht & -> & ->).
    apply segments_inv in H2 as (segs & Hsegs & -> & ->).
    split; [done|]. exists (t :: segs).
    split; [done|]. split; [by constructor|].
    by rewrite join_slash.
  - intros (-> & segs & Hne & Hsegs & ->).
    rewrite join_slash by done.
    destruct Hsegs as [|t segs Ht Hsegs]; [done|].
    rewrite fmap_cons, concat_cons.
    eapply matches_cat_eq; [by apply segment_intro | by apply segments_intro | done..].
Qed.

Lemma reference_matches w c :
  matches (Cat (Chr is_word) (Upto 127 (Chr is_refchar))) w c ↔
  c = [] ∧ is_reference (str w).
Proof.
  unfold is_reference, reference_re.
  rewrite <- length_chars, chars_str. split.
  - intros (w1 & w2 & c1 & c2 & -> & -> & H1 & H2)%matches_Cat_inv.
    apply matches_Chr_inv in H1 as (a & -> & Ha & ->).
    apply matches_Upto_Chr in H2 as (-> & Hlen & HF).
    split; [done|]. split; [simpl; lia|].
    apply (matches_cat_eq _ _ [a] w2 _ [] []); try done; [by constructor|].
    by apply matches_Star_Chr.
  - intros (-> & Hlen & (w1 & w2 & c1 & c2 & -> & Hc & H1 & H2)%matches_Cat_inv).
    apply matches_Chr_inv in H1 as (a & -> & Ha & ->).
    apply matches_Star_Chr in H2 as (-> & HF).
    apply (matches_cat_eq _ _ [a] w2 _ [] []); try done; [by constructor|].
    apply matches_Upto_Chr. simpl in Hlen. split; [done|]. split; [lia | done].
Qed.

(** The words of the pattern are the specification's paths, with the
    segment path (trailing slash included) and the reference captured. *)
Lemma manifestURLPattern_matches w c :
  matches manifestURLPattern w c ↔
  ∃ segs ref, segs ≠ [] ∧ Forall is_token segs ∧ is_reference ref ∧
    w = chars (manifest_path segs ref) ∧
    c = [(1, chars (join "/" segs) ++ chars "/"); (2, chars ref)].
Proof.
  unfold manifestURLPattern, manifest_path. split.
  - intros (w0 & w' & c0 & c' & -> & -> & H0 & H)%matches_Cat_inv.
    apply matches_Lit in H0 as [-> ->].
    apply matches_Cat_inv in H as (w1 & w'' & c1 & c'' & -> & -> & H1 & H).
    apply matches_Group_inv in H1 as (c1' & -> & H1).
    apply plus_segments in H1 as (-> & segs & Hne & Hsegs & ->).
    apply matches_Cat_inv in H as (w2 & w3 & c2 & c3 & -> & -> & H2 & H3).
    apply matches_Lit in H2 as [-> ->].
    apply matches_Group_inv in H3 as (c3' & -> & H3).
    apply reference_matches in H3 as (-> & Href).
    exists segs, (str w3). rewrite !chars_app, chars_str.
    split; [done|]. split; [done|]. split; [done|].
    split; [| done]. rewrite <- !app_assoc. done.
  - intros (segs & ref & Hne & Hsegs & Href & -> & ->).
    rewrite !chars_app.
    eapply matches_cat_eq; [by apply matches_Lit| |done|].
    + eapply (matches_cat_eq _ _ (chars (join "/" segs) ++ chars "/")).
      * apply (matches_group 1). apply plus_segments. eauto.
      * eapply matches_cat_eq; [by apply (matches_Lit (chars "manifests/"))| |done..].
        apply (matches_group 2). apply reference_matches.
        rewrite str_chars. done.
      * rewrite <- !app_assoc. done.
      * done.
    + done.
Qed.

End Pattern.

(** ** MatchPullManifest *)

Lemma TrimSuffix_app (x suffix : string) : TrimSuffix (x +:+ suffix) suffix = x.
Proof.
  unfold TrimSuffix. rewrite chars_app.
  rewrite decide_True by apply suffix_app_r, reflexivity.
  by rewrite length_app, Nat.add_sub, take_app_length, str_chars.
Qed.

Lemma submatch_two (a b : list ascii) :
  submatch [(1, a); (2, b)] 1 = a ∧ submatch [(1, a); (2, b)] 2 = b.
Proof.
  split; reflexivity.
Qed.

(** What the pattern finds in a path: the leading manifest path, its
    segment path with the trailing slash, and its reference. *)
Lemma FindStringSubmatch_Some (p : string) (l : list string) :
  FindStringSubmatch manifestURLPattern p = Some l →
  ∃ segs ref rest,
    segs ≠ [] ∧ Forall is_token segs ∧ is_reference ref ∧
    p = manifest_path segs ref +:+ rest ∧
    l = [manifest_path segs ref; join "/" segs +:+ "/"; ref].
Proof.
  unfold FindStringSubmatch.
  destruct (run manifestURLPattern (chars p)) as [|[rest c] tl] eqn:Hrun; [done|].
  intros [= <-].
  assert ((rest, c) ∈ run manifestURLPattern (chars p)) as Hin
    by (rewrite Hrun; apply list_elem_of_here).
  apply run_sound in Hin as (w & Hp & Hm).
  apply manifestURLPattern_matches in Hm as (segs & ref & Hne & Hsegs & Href & -> & ->).
  exists segs, ref, (str rest). split; [done|]. split; [done|]. split; [done|].
  split.
  - apply chars_inj. by rewrite chars_app, chars_str.
  - rewrite Hp, length_app, Nat.add_sub, take_app_length, str_chars.
    change (NumSubexp manifestURLPattern) with 2%nat.
    cbn [seq fmap list_fmap].
    destruct (submatch_two (chars (join "/" segs) ++ chars "/") (chars ref)) as [-> ->].
    by rewrite str_app, !str_chars.
Qed.

Lemma FindStringSubmatch_prefix (p : string) :
  has_manifest_prefix p → is_Some (FindStringSubmatch manifestURLPattern p).
Proof.
  intros (segs & ref & rest & Hne & Hsegs & Href & ->).
  assert (matches manifestURLPattern (chars (manifest_path segs ref))
            [(1, chars (join "/" segs) ++ chars "/"); (2, chars ref)]) as Hm
    by (apply manifestURLPattern_matches; eauto 10).
  apply run_complete with (rest := chars rest) in Hm.
  unfold FindStringSubmatch. rewrite chars_app.
  destruct (run manifestURLPattern _) as [|[??] ?]; [by apply elem_of_nil in Hm | eauto].
Qed.

(** A path of exactly the specification's form is read to its end by some
    entry of the search. *)
Lemma is_manifest_path_run (p : string) :
  is_manifest_path p → ∃ c, ([], c) ∈ run manifestURLPattern (chars p).
Proof.
  intros (segs & ref & Hne & Hsegs & Href & ->).
  eexists. rewrite <- (app_nil_r (chars _)). apply run_complete.
  apply manifestURLPattern_matches. eauto 10.
Qed.

Lemma MatchPullManifest_true (req : Request) (repo ref : string) :
  MatchPullManifest req = (true, repo, ref) →
  Method req = "GET" ∧
  ∃ segs rest,
    segs ≠ [] ∧ Forall is_token segs ∧ is_reference ref ∧
    repo = join "/" segs ∧
    Path req = manifest_path segs ref +:+ rest.
Proof.
  unfold MatchPullManifest, MethodGet.
  destruct (String.eqb_spec (Method req) "GET") as [HG|]; [|done]. simpl.
  destruct (FindStringSubmatch _ _) as [l|] eqn:Hf; [|done].
  apply FindStringSubmatch_Some in Hf
    as (segs & ref' & rest & Hne & Hsegs & Href & Hp & ->).
  intros [= <- <-]. split; [done|]. exists segs, rest.
  by rewrite TrimSuffix_app.
Qed.

Lemma MatchPullManifest_flag (req : Request) :
  (MatchPullManifest req).1.1 = true ↔
  Method req = "GET" ∧ has_manifest_prefix (Path req).
Proof.
  split.
  - destruct (MatchPullManifest req) as [[b repo] ref] eqn:HM. simpl. intros ->.
    apply MatchPullManifest_true in HM as (HG & segs & rest & ? & ? & ? & _ & Hp).
    split; [done|]. exists segs, ref, rest. done.
  - intros [HG Hp]. unfold MatchPullManifest, MethodGet. rewrite HG. simpl.
    destruct (FindStringSubmatch_prefix _ Hp) as [l Hl]. rewrite Hl.
    apply FindStringSubmatch_Some in Hl as (? & ? & ? & _ & _ & _ & _ & ->).
    done.
Qed.

Lemma MatchPullManifest_false (req : Request) :
  (MatchPullManifest req).1.1 = false → MatchPullManifest req = (false, "", "").
Proof.
  unfold MatchPullManifest.
  destruct (negb _); [done|].
  destruct (FindStringSubmatch _ _) as [[|? [|? [|? [|]]]]|]; done.
Qed.

(** C2, as stated, fails: a path with more text after the reference is
    still reported as a manifest pull, although it does not have the form
    /v2/<segments>/manifests/<reference>. *)
Lemma MatchPullManifest_trailing_counterexample :
  MatchPullManifest (GET "/v2/a/b/manifests/latest/extra")
  = (true, "a/b", "latest")
  ∧ ¬ is_manifest_path "/v2/a/b/manifests/latest/extra".
Proof.
  split; [by vm_compute|].
  intros [c Hin]%is_manifest_path_run.
  assert (Forall (λ e : list ascii * caps, e.1 ≠ [])
            (run manifestURLPattern (chars "/v2/a/b/manifests/latest/extra")))
    as HF.
  { vm_compute. repeat constructor; simpl; discriminate. }
  rewrite Forall_forall in HF. by apply (HF _ Hin).
Qed.

Example MatchPullManifest_ex1 :
  MatchPullManifest (GET "/v2/library/ubuntu/manifests/14.04")
  = (true, "library/ubuntu", "14.04").
Proof. by vm_compute. Qed.

Example MatchPullManifest_ex2 :
  MatchPullManifest (GET "/v2/a/manifests/manifests/x/y")
  = (true, "a/manifests", "x").
Proof. by vm_compute. Qed.

Example MatchPullManifest_ex3 :
  MatchPullManifest (mkRequest "HEAD" "/v2/a/b/manifests/latest" None)
  = (false, "", "").
Proof. by vm_compute. Qed.

Example MatchPullManifest_ex4 :
  MatchPullManifest (GET "/v2/a/b/manifests/") = (false, "", "").
Proof. by vm_compute. Qed.

(** A reference longer than 128 characters is cut, not refused. *)
Example MatchPullManifest_long_reference :
  MatchPullManifest (GET ("/v2/a/b/manifests/" +:+ str (replicate 129 "x"%char)))
  = (true, "a/b", str (replicate 128 "x"%char)).
Proof. by vm_compute. Qed.

Example SplitN_ex1 : SplitN "library/ubuntu/xenial" "/" 2 = ["library"; "ubuntu/xenial"].
Proof. by vm_compute. Qed.

Example SplitN_ex2 : SplitN "singletoken" "/" 2 = ["singletoken"].
Proof. by vm_compute. Qed.

Example MatchPullManifest_ex5 :
  MatchPullManifest (GET "/v2/A/b/manifests/latest") = (false, "", "").
Proof. by vm_compute. Qed.

(** ** Running the writer operations *)

Lemma update_run rw f st w :
  writers st !! rw = Some w →
  update rw f st = Some (tt, set_writers st (<[rw := f w]> (writers st))).
Proof. intros H. unfold update, load, store. munfold. by rewrite H. Qed.

Lemma lookup_updated (ws : list ResponseWriter) rw w w' :
  ws !! rw = Some w → <[rw := w']> ws !! rw = Some w'.
Proof. intros H. apply list_lookup_insert_eq. by eapply lookup_lt_Some. Qed.

Lemma http_Error_run rw err code st w :
  writers st !! rw = Some w →
  http_Error rw err code st
  = Some (tt, set_writers st (<[rw := errorResponse w err code]> (writers st))).
Proof.
  intros H. unfold http_Error, Header_Set, WriteHeader, Write. munfold.
  rewrite (update_run _ _ _ _ H).
  erewrite update_run by (simpl; eapply lookup_updated, H).
  erewrite update_run by (simpl; eapply lookup_updated, lookup_updated, H).
  erewrite update_run
    by (simpl; eapply lookup_updated, lookup_updated, lookup_updated, H).
  simpl. by rewrite !list_insert_insert_eq.
Qed.

Lemma copyResp_run r rw st src dst :
  r ≠ rw →
  writers st !! r = Some src →
  writers st !! rw = Some dst →
  copyResp (Some r) rw st
  = Some (tt, set_writers st (<[rw := replayed src dst]> (writers st))).
Proof.
  intros Hne Hr Hrw. unfold copyResp, WriteHeader, Write, load. munfold.
  rewrite Hr. rewrite (update_run _ _ _ _ Hrw). simpl.
  rewrite list_lookup_insert_ne, Hr by done.
  erewrite update_run by (simpl; eapply lookup_updated, Hrw). simpl.
  rewrite !list_lookup_insert_ne, Hr by done.
  erewrite update_run by (simpl; eapply lookup_updated, lookup_updated, Hrw).
  simpl. by rewrite !list_insert_insert_eq.
Qed.

Lemma marshalError_body msg code :
  code ≠ 0%Z → msg ≠ "" → marshalError msg code = errorBody code msg.
Proof.
  intros Hc Hm. unfold marshalError, json_Marshal, errorBody, JSONError_fields.
  simpl. by rewrite !decide_False.
Qed.

Lemma map_fold_insert_union (src dst : gmap string (list string)) :
  map_fold (λ k v h, <[k := v]> h) dst src = src ∪ dst.
Proof.
  apply (map_fold_weak_ind (λ r m, r = m ∪ dst)).
  - by rewrite (left_id_L ∅ (∪)).
  - intros k v m r _ ->. by rewrite insert_union_l.
Qed.

(** ** Policy checkers *)

Lemma envPolicyChecker_contentTrust E name st :
  contentTrustEnabled (EnvChecker E) name st
  = Some (String.eqb (Getenv E "PROJECT_CONTENT_TRUST") "1",
          add_trace st [EvGetenv "PROJECT_CONTENT_TRUST"]).
Proof. done. Qed.

Lemma envPolicyChecker_vulnerable E name st :
  vulnerablePolicy (EnvChecker E) name st
  = Some ((String.eqb (Getenv E "PROJECT_VULNERABLE") "1",
           ParseClairSev E (Getenv E "PROJECT_SEVERITY")),
          add_trace st [EvGetenv "PROJECT_VULNERABLE"; EvGetenv "PROJECT_SEVERITY"]).
Proof.
  unfold vulnerablePolicy, envPolicyChecker_policyChecker, os_Getenv, emit.
  munfold. unfold add_trace. simpl. by rewrite <- app_assoc.
Qed.

(** A policy lookup touches neither the writers nor [rec]; it only adds
    policy events to the trace. *)
Lemma contentTrustEnabled_frame E name st b st1 :
  contentTrustEnabled (getPolicyChecker E) name st = Some (b, st1) →
  ∃ evs, st1 = add_trace st evs ∧ Forall policy_event evs.
Proof.
  unfold getPolicyChecker. destruct (WithAdmiral E); simpl.
  - unfold project_Get, emit, deref, panic. munfold. simpl.
    destruct (pm_Get _ _) as [[p|] [e|]]; intros [= <- <-] || (try done);
      exists [EvProjectGet name]; split; try done; by repeat constructor.
  - intros [= <- <-]. exists [EvGetenv "PROJECT_CONTENT_TRUST"].
    split; [done | by repeat constructor].
Qed.

Lemma vulnerablePolicy_frame E name st r st1 :
  vulnerablePolicy (getPolicyChecker E) name st = Some (r, st1) →
  ∃ evs, st1 = add_trace st evs ∧ Forall policy_event evs.
Proof.
  unfold getPolicyChecker. destruct (WithAdmiral E).
  - simpl. unfold project_Get, emit, deref, panic. munfold. simpl.
    destruct (pm_Get _ _) as [[p|] [e|]]; intros [= <- <-] || (try done);
      exists [EvProjectGet name]; split; try done; by repeat constructor.
  - change (vulnerablePolicy (EnvPolicyChecker (EnvChecker E)) name st)
      with (vulnerablePolicy (EnvChecker E) name st).
    rewrite envPolicyChecker_vulnerable. intros [= <- <-].
    eexists. split; [done | by repeat constructor].
Qed.

(** C8: when the project manager's lookup of the project fails, the
    tenant-store policy checker reports content trust as enabled and the
    vulnerability policy as enabled with threshold SevUnknown, for every
    project name. *)
Theorem pmsPolicyChecker_lookup_failure
    (E : Env) (p : ProjectManager) (name : string) (st : State)
    (project : option Project) (e : error) :
  pm_Get p name = (project, Some e) →
  contentTrustEnabled (newPMSPolicyChecker E p) name st
  = Some (true, add_trace st [EvProjectGet name])
  ∧ vulnerablePolicy (newPMSPolicyChecker E p) name st
    = Some ((true, SevUnknown E), add_trace st [EvProjectGet name]).
Proof.
  intros H. unfold contentTrustEnabled, vulnerablePolicy,
    pmsPolicyChecker_policyChecker, project_Get, emit. munfold. simpl.
  by rewrite H.
Qed.

Lemma pmsPolicyChecker_lookup_failure_witness :
  contentTrustEnabled
    (newPMSPolicyChecker (deploy openDeployment)
       (GlobalProjectMgr (deploy openDeployment))) "library" oneClient
  = Some (true, add_trace oneClient [EvProjectGet "library"])
  ∧ vulnerablePolicy
      (newPMSPolicyChecker (deploy openDeployment)
         (GlobalProjectMgr (deploy openDeployment))) "library" oneClient
    = Some ((true, 2%Z), add_trace oneClient [EvProjectGet "library"]).
Proof.
  apply (pmsPolicyChecker_lookup_failure (deploy openDeployment) _ "library"
           oneClient None "unreachable").
  reflexivity.
Defined.

(** ** matchNotaryDigest *)

Lemma matchTargets_skip E img pre l :
  Forall (λ u, Tag u ≠ tag img) pre →
  matchTargets E img (pre ++ l) = matchTargets E img l.
Proof.
  induction 1 as [|u pre Hu _ IH]; [done|]. simpl.
  by destruct (String.eqb_spec (Tag u) (tag img)).
Qed.

Lemma first_tagged_split ref targets :
  match first_tagged ref targets with
  | Some t => ∃ pre post, targets = pre ++ t :: post ∧
                Forall (λ u, Tag u ≠ ref) pre ∧ Tag t = ref
  | None => Forall (λ u, Tag u ≠ ref) targets
  end.
Proof.
  unfold first_tagged. induction targets as [|u l IH]; simpl; [done|].
  destruct (decide (Tag u = ref)) as [Hu|Hu].
  - rewrite filter_cons_True by done. simpl. by exists [], l.
  - rewrite filter_cons_False by done.
    destruct (head _) as [t|].
    + destruct IH as (pre & post & -> & Hpre & Ht).
      exists (u :: pre), post. split; [done|]. split; [by constructor | done].
    + by constructor.
Qed.

(** The loop decides by the first target that carries the tag. *)
Lemma matchTargets_first_tagged E img targets :
  matchTargets E img targets
  = match first_tagged (tag img) targets with
    | None => (false, None)
    | Some t =>
        match DigestFromTarget E t with
        | (_, Some e) => (false, Some e)
        | (d, None) => (String.eqb (digest img) d, None)
        end
    end.
Proof.
  pose proof (first_tagged_split (tag img) targets) as H.
  destruct (first_tagged _ _) as [t|].
  - destruct H as (pre & post & -> & Hpre & Ht).
    rewrite matchTargets_skip by done. simpl.
    rewrite <- Ht, String.eqb_refl. by destruct (DigestFromTarget E t) as [d [e|]].
  - rewrite <- (app_nil_r targets). by rewrite matchTargets_skip.
Qed.

Lemma matchNotaryDigest_run E img st :
  matchNotaryDigest E img st
  = Some (match GetInternalTargets E (NotaryEndpoint E) tokenUsername
                  (repository img) with
          | (_, Some e) => (false, Some e)
          | (targets, None) => matchTargets E img targets
          end,
          add_trace st
            [EvGetInternalTargets (NotaryEndpoint E) tokenUsername (repository img)]).
Proof.
  unfold matchNotaryDigest, emit. munfold. simpl.
  by destruct (GetInternalTargets _ _ _ _) as [targets [e|]].
Qed.

(** C10: the digest match is decided by the first target in list order
    whose tag equals the descriptor's reference: the result is whether
    the descriptor's digest equals that target's digest, whatever targets
    follow it; when no target carries the tag the result is false without
    an error.  (When the digest of that first target cannot be read, the
    result is false with the error of the reading.) *)
Theorem matchNotaryDigest_first_match (E : Env) (img : imageInfo) (st : State) :
  (∀ pre t post d,
     GetInternalTargets E (NotaryEndpoint E) tokenUsername (repository img)
     = (pre ++ t :: post, None) →
     Forall (λ u, Tag u ≠ tag img) pre →
     Tag t = tag img →
     DigestFromTarget E t = (d, None) →
     matchNotaryDigest E img st
     = Some ((String.eqb (digest img) d, None),
             add_trace st
               [EvGetInternalTargets (NotaryEndpoint E) tokenUsername
                  (repository img)]))
  ∧ (∀ targets,
     GetInternalTargets E (NotaryEndpoint E) tokenUsername (repository img)
     = (targets, None) →
     Forall (λ u, Tag u ≠ tag img) targets →
     matchNotaryDigest E img st
     = Some ((false, None),
             add_trace st
               [EvGetInternalTargets (NotaryEndpoint E) tokenUsername
                  (repository img)]))
  ∧ (∀ pre t post d e,
     GetInternalTargets E (NotaryEndpoint E) tokenUsername (repository img)
     = (pre ++ t :: post, None) →
     Forall (λ u, Tag u ≠ tag img) pre →
     Tag t = tag img →
     DigestFromTarget E t = (d, Some e) →
     matchNotaryDigest E img st
     = Some ((false, Some e),
             add_trace st
               [EvGetInternalTargets (NotaryEndpoint E) tokenUsername
                  (repository img)])).
Proof.
  split; [|split].
  - intros pre t post d HG Hpre Ht Hd. rewrite matchNotaryDigest_run, HG.
    rewrite matchTargets_skip by done. simpl.
    by rewrite Ht, String.eqb_refl, Hd.
  - intros targets HG Hnone. rewrite matchNotaryDigest_run, HG.
    rewrite <- (app_nil_r targets). by rewrite matchTargets_skip.
  - intros pre t post d e HG Hpre Ht Hd. rewrite matchNotaryDigest_run, HG.
    rewrite matchTargets_skip by done. simpl.
    by rewrite Ht, String.eqb_refl, Hd.
Qed.

Lemma matchNotaryDigest_first_match_witness :
  matchNotaryDigest
    (deploy (trustDeployment
               [signed "v0" "000"; signed "v1" "abc"; signed "v1" "fff"]))
    (imgOf "library/ubuntu" "v1" "library" "sha256:abc") oneClient
  = Some ((true, None),
          add_trace oneClient
            [EvGetInternalTargets "http://notary-server:4443" "harbor-ui"
               "library/ubuntu"]).
Proof.
  apply (proj1 (matchNotaryDigest_first_match
                  (deploy (trustDeployment
                     [signed "v0" "000"; signed "v1" "abc"; signed "v1" "fff"]))
                  (imgOf "library/ubuntu" "v1" "library" "sha256:abc") oneClient)
           [signed "v0" "000"] (signed "v1" "abc") [signed "v1" "fff"]
           "sha256:abc").
  - reflexivity.
  - repeat constructor. simpl. discriminate.
  - reflexivity.
  - reflexivity.
Defined.

(** ** What the writers hold after an answer *)

Lemma errorResponse_fresh w err code :
  wroteHeader w = false →
  Code (errorResponse w err code) = code
  ∧ Body (errorResponse w err code) = Body w +:+ err +:+ newline
  ∧ wroteHeader (errorResponse w err code) = true.
Proof.
  intros H. unfold errorResponse, write, writeHeader, setHeader. simpl.
  rewrite H. done.
Qed.

Lemma replayed_fresh src dst :
  wroteHeader dst = false →
  (∀ k v, HeaderMap src !! k = Some v → snapHeader (replayed src dst) !! k = Some v)
  ∧ (∀ k, HeaderMap src !! k = None →
       snapHeader (replayed src dst) !! k = HeaderMap dst !! k)
  ∧ Code (replayed src dst) = Result_StatusCode src
  ∧ Body (replayed src dst) = Body dst +:+ Body src.
Proof.
  intros H. unfold replayed, write, writeHeader, copyHeaders. simpl.
  rewrite H. simpl. rewrite map_fold_insert_union.
  split; [|split; [|done]].
  - intros k v Hk. by apply lookup_union_Some_l.
  - intros k Hk. by apply lookup_union_r.
Qed.

Lemma settle_deny_run next rw req st w code msg :
  writers st !! rw = Some w → code ≠ 0%Z → msg ≠ "" →
  settle (Deny code msg) next rw req st = Some (tt, denied st rw w code msg)
  ∧ settle (Fail code msg) next rw req st = Some (tt, denied st rw w code msg).
Proof.
  intros Hw Hc Hm. unfold settle, denied.
  by rewrite marshalError_body, (http_Error_run _ _ _ _ _ Hw).
Qed.

(** ** The content trust stage *)

Lemma contentTrustHandler_skip E next rw req :
  ImageInfo req = None ∨ WithNotary E = false →
  contentTrustHandler_ServeHTTP E next rw req = next rw req.
Proof.
  unfold contentTrustHandler_ServeHTTP.
  intros [-> | ->]; [done | by destruct (ImageInfo req)].
Qed.

Lemma contentTrustDecision_matchNotaryDigest E img :
  contentTrustDecision E img
  = match GetInternalTargets E (NotaryEndpoint E) tokenUsername (repository img) with
    | (_, Some _) => Fail StatusInternalServerError msgNotary
    | (targets, None) =>
        match matchTargets E img targets with
        | (_, Some _) => Fail StatusInternalServerError msgNotary
        | (false, None) => Deny StatusPreconditionFailed msgNotSigned
        | (true, None) => Continue
        end
    end.
Proof.
  unfold contentTrustDecision.
  destruct (GetInternalTargets _ _ _ _) as [targets [e|]]; [done|].
  rewrite matchTargets_first_tagged.
  destruct (first_tagged _ _) as [t|]; [|done].
  destruct (DigestFromTarget E t) as [d [e|]]; [done|].
  by destruct (String.eqb _ _).
Qed.

Lemma contentTrustHandler_enforced E next rw req st img b st1 :
  ImageInfo req = Some img →
  WithNotary E = true →
  contentTrustEnabled (getPolicyChecker E) (projectName img) st = Some (b, st1) →
  contentTrustHandler_ServeHTTP E next rw req st
  = if b then
      settle (contentTrustDecision E img) next rw req
        (add_trace st1
           [EvGetInternalTargets (NotaryEndpoint E) tokenUsername (repository img)])
    else next rw req st1.
Proof.
  intros Himg HN Hpol. unfold contentTrustHandler_ServeHTTP.
  rewrite Himg, HN. cbn [negb]. munfold. rewrite Hpol.
  destruct b; cbn [negb]; [|done].
  rewrite matchNotaryDigest_run, contentTrustDecision_matchNotaryDigest.
  destruct (GetInternalTargets _ _ _ _) as [targets [e|]]; [done|].
  by destruct (matchTargets E img targets) as [[|] [e|]].
Qed.

(** When each decision is taken. *)
Lemma contentTrustDecision_cases E img targets err :
  GetInternalTargets E (NotaryEndpoint E) tokenUsername (repository img)
  = (targets, err) →
  (contentTrustDecision E img = Fail StatusInternalServerError msgNotary ↔
     is_Some err ∨
     ∃ t d e, first_tagged (tag img) targets = Some t ∧
              DigestFromTarget E t = (d, Some e))
  ∧ (contentTrustDecision E img = Deny StatusPreconditionFailed msgNotSigned ↔
     err = None ∧
     (first_tagged (tag img) targets = None ∨
      ∃ t d, first_tagged (tag img) targets = Some t ∧
             DigestFromTarget E t = (d, None) ∧ d ≠ digest img))
  ∧ (contentTrustDecision E img = Continue ↔
     err = None ∧
     ∃ t, first_tagged (tag img) targets = Some t ∧
          DigestFromTarget E t = (digest img, None)).
Proof.
  intros HG. unfold contentTrustDecision, is_Some. rewrite HG.
  destruct err as [e|];
    [|destruct (first_tagged _ _) as [t|];
      [destruct (DigestFromTarget E t) as [d [e|]] eqn:Hd;
       [|destruct (String.eqb_spec (digest img) d) as [->|Hne]]|]];
    (split; [|split]); split; intros H;
    repeat match goal with
      | H : _ ∧ _ |- _ => destruct H
      | H : _ ∨ _ |- _ => destruct H
      | H : ∃ _, _ |- _ => destruct H
      end;
    simplify_eq; try congruence; eauto 10.
Qed.

Lemma denied_writer st rw w code msg :
  wroteHeader w = false →
  ∃ out,
    denied st rw w code msg
    = set_writers st (<[rw := out]> (writers st))
    ∧ Code out = code
    ∧ Body out = Body w +:+ errorBody code msg +:+ newline.
Proof.
  intros Hfresh. exists (errorResponse w (errorBody code msg) code).
  split; [done|].
  by destruct (errorResponse_fresh w (errorBody code msg) code Hfresh)
    as (? & ? & _).
Qed.

(** C5, as amended: the content trust stage hands the request on without
    querying the trust subsystem when no image descriptor is in the
    context, when content trust is globally disabled, or when the
    tenant's policy disables it.  Otherwise it queries the trust
    subsystem and answers 500 with a generic message exactly when the
    query fails or the digest of the first target carrying the reference
    as tag cannot be read; it answers 412, the image is not signed,
    exactly when no target carries the tag or the first one that does has
    a digest other than the descriptor's; and it hands the request on
    exactly when the first target carrying the tag has the descriptor's
    digest.  An answer of the stage is the status and the error body on
    the client's connection, and nothing else: the next handler is not
    called. *)
Theorem contentTrustHandler_decides
    (E : Env) (next : Handler) (rw : nat) (req : Request) (st : State) :
  (ImageInfo req = None ∨ WithNotary E = false →
   contentTrustHandler_ServeHTTP E next rw req st = next rw req st)
  ∧ (∀ img b st1,
       ImageInfo req = Some img →
       WithNotary E = true →
       contentTrustEnabled (getPolicyChecker E) (projectName img) st = Some (b, st1) →
       (∃ evs, st1 = add_trace st evs ∧ Forall policy_event evs)
       ∧ (b = false →
          contentTrustHandler_ServeHTTP E next rw req st = next rw req st1)
       ∧ (b = true →
          contentTrustHandler_ServeHTTP E next rw req st
          = settle (contentTrustDecision E img) next rw req
              (add_trace st1
                 [EvGetInternalTargets (NotaryEndpoint E) tokenUsername
                    (repository img)])))
  ∧ (∀ img targets err,
       GetInternalTargets E (NotaryEndpoint E) tokenUsername (repository img)
       = (targets, err) →
       (contentTrustDecision E img = Fail StatusInternalServerError msgNotary ↔
          is_Some err ∨
          ∃ t d e, first_tagged (tag img) targets = Some t ∧
                   DigestFromTarget E t = (d, Some e))
       ∧ (contentTrustDecision E img
          = Deny StatusPreconditionFailed msgNotSigned ↔
          err = None ∧
          (first_tagged (tag img) targets = None ∨
           ∃ t d, first_tagged (tag img) targets = Some t ∧
                  DigestFromTarget E t = (d, None) ∧ d ≠ digest img))
       ∧ (contentTrustDecision E img = Continue ↔
          err = None ∧
          ∃ t, first_tagged (tag img) targets = Some t ∧
               DigestFromTarget E t = (digest img, None)))
  ∧ (∀ img st1 w,
       ImageInfo req = Some img →
       WithNotary E = true →
       contentTrustEnabled (getPolicyChecker E) (projectName img) st
       = Some (true, st1) →
       writers st1 !! rw = Some w →
       wroteHeader w = false →
       let asked :=
         add_trace st1
           [EvGetInternalTargets (NotaryEndpoint E) tokenUsername
              (repository img)] in
       (contentTrustDecision E img = Fail StatusInternalServerError msgNotary →
        ∃ out,
          contentTrustHandler_ServeHTTP E next rw req st
          = Some (tt, set_writers asked (<[rw := out]> (writers st1)))
          ∧ Code out = 500%Z
          ∧ Body out = Body w +:+ errorBody 500 msgNotary +:+ newline)
       ∧ (contentTrustDecision E img
          = Deny StatusPreconditionFailed msgNotSigned →
          ∃ out,
            contentTrustHandler_ServeHTTP E next rw req st
            = Some (tt, set_writers asked (<[rw := out]> (writers st1)))
            ∧ Code out = 412%Z
            ∧ Body out = Body w +:+ errorBody 412 msgNotSigned +:+ newline)
       ∧ (contentTrustDecision E img = Continue →
          contentTrustHandler_ServeHTTP E next rw req st = next rw req asked)).
Proof.
  split; [|split; [|split]].
  - intros H. by rewrite contentTrustHandler_skip.
  - intros img b st1 Himg HN Hpol.
    split; [by eapply contentTrustEnabled_frame|].
    rewrite (contentTrustHandler_enforced _ _ _ _ _ _ _ _ Himg HN Hpol).
    split; by intros ->.
  - apply contentTrustDecision_cases.
  - intros img st1 w Himg HN Hpol Hw Hfresh asked.
    rewrite (contentTrustHandler_enforced _ _ _ _ _ _ _ _ Himg HN Hpol).
    fold asked.
    split; [|split]; intros ->; [| |done].
    + destruct (settle_deny_run next rw req asked w
                  StatusInternalServerError msgNotary Hw) as [_ ->]; [done..|].
      destruct (denied_writer asked rw w StatusInternalServerError msgNotary
                  Hfresh) as (out & -> & Hc & Hb).
      by exists out.
    + destruct (settle_deny_run next rw req asked w
                  StatusPreconditionFailed msgNotSigned Hw) as [-> _]; [done..|].
      destruct (denied_writer asked rw w StatusPreconditionFailed msgNotSigned
                  Hfresh) as (out & -> & Hc & Hb).
      by exists out.
Qed.

(** An unsigned tag is answered with 412 and the error body. *)
Lemma contentTrustHandler_decides_witness :
  ∃ out,
    contentTrustHandler_ServeHTTP
      (deploy (trustDeployment [signed "v0" "000"])) echoRegistry 0
      (pulling (imgOf "library/ubuntu" "v1" "library" "sha256:abc")) oneClient
    = Some (tt,
            {| writers := [out]; rec := None;
               trace := [EvGetenv "PROJECT_CONTENT_TRUST";
                         EvGetInternalTargets "http://notary-server:4443"
                           "harbor-ui" "library/ubuntu"] |})
    ∧ Code out = 412%Z
    ∧ Body out = errorBody 412 msgNotSigned +:+ newline.
Proof.
  apply (proj1 (proj2 (proj2 (proj2 (proj2
           (contentTrustHandler_decides
              (deploy (trustDeployment [signed "v0" "000"])) echoRegistry 0
              (pulling (imgOf "library/ubuntu" "v1" "library" "sha256:abc"))
              oneClient)))
           (imgOf "library/ubuntu" "v1" "library" "sha256:abc")
           (add_trace oneClient [EvGetenv "PROJECT_CONTENT_TRUST"])
           freshWriter eq_refl eq_refl eq_refl eq_refl eq_refl)) eq_refl).
Defined.

(** C5, as stated, fails: the query of the trust subsystem succeeds and a
    target carrying the reference as tag has the descriptor's digest, yet
    the stage answers 500 instead of handing the request on, because an
    earlier target with the same tag has no digest to read. *)
Lemma contentTrustHandler_counterexample :
  let E := deploy (trustDeployment [unhashed "v1"; signed "v1" "abc"]) in
  let img := imgOf "library/ubuntu" "v1" "library" "sha256:abc" in
  GetInternalTargets E (NotaryEndpoint E) tokenUsername (repository img)
  = ([unhashed "v1"; signed "v1" "abc"], None)
  ∧ (signed "v1" "abc" ∈ [unhashed "v1"; signed "v1" "abc"]
     ∧ Tag (signed "v1" "abc") = tag img
     ∧ DigestFromTarget E (signed "v1" "abc") = (digest img, None))
  ∧ sent (contentTrustHandler_ServeHTTP E echoRegistry 0 (pulling img) oneClient) 0
    = Some (500%Z,
            [("Content-Type", ["text/plain; charset=utf-8"]);
             ("X-Content-Type-Options", ["nosniff"])],
            errorBody 500 msgNotary +:+ newline).
Proof.
  split; [done|]. split; [|by vm_compute].
  split; [set_solver | done].
Qed.

(** ** The vulnerability stage *)

Lemma vulnerableHandler_skip E next rw req :
  ImageInfo req = None ∨ WithClair E = false →
  vulnerableHandler_ServeHTTP E next rw req = next rw req.
Proof.
  unfold vulnerableHandler_ServeHTTP.
  intros [-> | ->]; [done | by destruct (ImageInfo req)].
Qed.

Lemma vulnerableHandler_enforced E next rw req st img threshold st1 :
  ImageInfo req = Some img →
  WithClair E = true →
  vulnerablePolicy (getPolicyChecker E) (projectName img) st
  = Some ((true, threshold), st1) →
  vulnerableHandler_ServeHTTP E next rw req st
  = settle
      match GetImgScanOverview E (digest img) with
      | (_, Some _) => Deny StatusPreconditionFailed msgScanFailed
      | (None, None) => Deny StatusPreconditionFailed msgNoScan
      | (Some ov, None) =>
          if Z.geb (Sev ov) threshold
          then Deny StatusPreconditionFailed (severityMessage E (Sev ov) threshold)
          else Continue
      end next rw req
      (add_trace st1 [EvGetImgScanOverview (digest img)]).
Proof.
  intros Himg HC Hpol. unfold vulnerableHandler_ServeHTTP.
  rewrite Himg, HC. cbn [negb]. munfold. rewrite Hpol. cbn [negb].
  unfold dao_GetImgScanOverview, emit. munfold.
  destruct (GetImgScanOverview E (digest img)) as [[ov|] [e|]]; try done.
  simpl. by destruct (Z.geb _ _).
Qed.

(** C6: in the vulnerability stage, a failing lookup of the scan overview
    is answered with 412, not 500, and so is a missing overview, with the
    message that the scan overview cannot be got; in both cases the
    client receives the error body alone: the next handler, which would
    replay the buffered response, is not called and no other writer is
    touched. *)
Theorem vulnerableHandler_unverifiable
    (E : Env) (next : Handler) (rw : nat) (req : Request) (st st1 : State)
    (img : imageInfo) (threshold : Severity) (w : ResponseWriter) :
  ImageInfo req = Some img →
  WithClair E = true →
  vulnerablePolicy (getPolicyChecker E) (projectName img) st
  = Some ((true, threshold), st1) →
  writers st1 !! rw = Some w →
  wroteHeader w = false →
  ((∃ ov e, GetImgScanOverview E (digest img) = (ov, Some e)) →
   vulnerableHandler_ServeHTTP E next rw req st
   = Some (tt, denied (add_trace st1 [EvGetImgScanOverview (digest img)]) rw w
                 StatusPreconditionFailed msgScanFailed))
  ∧ (GetImgScanOverview E (digest img) = (None, None) →
     vulnerableHandler_ServeHTTP E next rw req st
     = Some (tt, denied (add_trace st1 [EvGetImgScanOverview (digest img)]) rw w
                   StatusPreconditionFailed msgNoScan))
  ∧ (∀ message,
       let out := errorResponse w (errorBody StatusPreconditionFailed message)
                    StatusPreconditionFailed in
       writers (denied (add_trace st1 [EvGetImgScanOverview (digest img)]) rw w
                  StatusPreconditionFailed message)
       = <[rw := out]> (writers st1)
       ∧ Code out = 412%Z
       ∧ Body out
         = Body w +:+ errorBody StatusPreconditionFailed message +:+ newline).
Proof.
  intros Himg HC Hpol Hw Hfresh.
  rewrite (vulnerableHandler_enforced _ _ _ _ _ _ _ _ Himg HC Hpol).
  split; [|split].
  - intros (ov & e & ->).
    destruct ov; by apply (settle_deny_run next rw req _ w).
  - intros ->. by apply (settle_deny_run next rw req _ w).
  - intros message out. split; [done|].
    by destruct (errorResponse_fresh w
                   (errorBody StatusPreconditionFailed message)
                   StatusPreconditionFailed Hfresh) as (? & ? & _).
Qed.

Lemma vulnerableHandler_unverifiable_witness :
  sent (vulnerableHandler_ServeHTTP
          (deploy (scanDeployment "medium" (None, Some "connection refused")))
          echoRegistry 0
          (pulling (imgOf "library/ubuntu" "v1" "library" "sha256:abc"))
          oneClient) 0
  = Some (412%Z,
          [("Content-Type", ["text/plain; charset=utf-8"]);
           ("X-Content-Type-Options", ["nosniff"])],
          errorBody 412 msgScanFailed +:+ newline).
Proof.
  rewrite (proj1 (vulnerableHandler_unverifiable
             (deploy (scanDeployment "medium" (None, Some "connection refused")))
             echoRegistry 0
             (pulling (imgOf "library/ubuntu" "v1" "library" "sha256:abc"))
             oneClient
             (add_trace oneClient
                [EvGetenv "PROJECT_VULNERABLE"; EvGetenv "PROJECT_SEVERITY"])
             (imgOf "library/ubuntu" "v1" "library" "sha256:abc") 4%Z
             freshWriter eq_refl eq_refl eq_refl eq_refl eq_refl)
           (ex_intro _ None (ex_intro _ "connection refused" eq_refl))).
  reflexivity.
Defined.

(** C7: with a scan overview on record, the vulnerability stage answers
    412, in a message naming the image's severity and the threshold,
    exactly when the image's severity is at or above the tenant's
    threshold, and hands the request on exactly when it is strictly
    below.  The answer is the status 412 and the error body with that
    message on the client's connection, and nothing else: the next
    handler is not called. *)
Theorem vulnerableHandler_threshold
    (E : Env) (next : Handler) (rw : nat) (req : Request) (st st1 : State)
    (img : imageInfo) (threshold : Severity) (ov : ImgScanOverview) :
  ImageInfo req = Some img →
  WithClair E = true →
  vulnerablePolicy (getPolicyChecker E) (projectName img) st
  = Some ((true, threshold), st1) →
  GetImgScanOverview E (digest img) = (Some ov, None) →
  let asked := add_trace st1 [EvGetImgScanOverview (digest img)] in
  let message :=
    "The severity of vulnerability of the image: "
    +:+ Severity_q E (Sev ov)
    +:+ " is equal or higher than the threshold in project setting: "
    +:+ Severity_q E threshold +:+ "." in
  (∀ w,
     writers st1 !! rw = Some w →
     wroteHeader w = false →
     (threshold ≤ Sev ov)%Z →
     ∃ out,
       vulnerableHandler_ServeHTTP E next rw req st
       = Some (tt, set_writers asked (<[rw := out]> (writers st1)))
       ∧ Code out = 412%Z
       ∧ Body out = Body w +:+ errorBody 412 message +:+ newline)
  ∧ ((Sev ov < threshold)%Z →
     vulnerableHandler_ServeHTTP E next rw req st = next rw req asked)
  ∧ ∃ d : PolicyDecision,
      vulnerableHandler_ServeHTTP E next rw req st = settle d next rw req asked
      ∧ (d = Deny StatusPreconditionFailed message ↔ (threshold ≤ Sev ov)%Z)
      ∧ (d = Continue ↔ (Sev ov < threshold)%Z).
Proof.
  intros Himg HC Hpol Hov asked message.
  rewrite (vulnerableHandler_enforced _ _ _ _ _ _ _ _ Himg HC Hpol), Hov.
  fold asked. change (severityMessage E (Sev ov) threshold) with message.
  split; [|split].
  - intros w Hw Hfresh Hle.
    destruct (Z.geb_spec (Sev ov) threshold); [|lia].
    destruct (settle_deny_run next rw req asked w
                StatusPreconditionFailed message Hw) as [-> _]; [done..|].
    destruct (denied_writer asked rw w StatusPreconditionFailed message
                Hfresh) as (out & -> & Hc & Hb).
    by exists out.
  - intros Hlt. by destruct (Z.geb_spec (Sev ov) threshold); [lia|].
  - eexists. split; [reflexivity|].
    split; destruct (Z.geb_spec (Sev ov) threshold); split; (done || lia).
Qed.

(** Severity high (5) against the threshold medium (4): denied. *)
Lemma vulnerableHandler_threshold_witness :
  ∃ out,
    vulnerableHandler_ServeHTTP
      (deploy (scanDeployment "medium" (Some {| Sev := 5 |}, None)))
      echoRegistry 0
      (pulling (imgOf "library/ubuntu" "v1" "library" "sha256:abc")) oneClient
    = Some (tt,
            {| writers := [out]; rec := None;
               trace := [EvGetenv "PROJECT_VULNERABLE";
                         EvGetenv "PROJECT_SEVERITY";
                         EvGetImgScanOverview "sha256:abc"] |})
    ∧ Code out = 412%Z
    ∧ Body out
      = errorBody 412
          "The severity of vulnerability of the image: 5 is equal or higher than the threshold in project setting: 4."
        +:+ newline.
Proof.
  apply (proj1 (vulnerableHandler_threshold
              (deploy (scanDeployment "medium" (Some {| Sev := 5 |}, None)))
              echoRegistry 0
              (pulling (imgOf "library/ubuntu" "v1" "library" "sha256:abc"))
              oneClient
              (add_trace oneClient
                 [EvGetenv "PROJECT_VULNERABLE"; EvGetenv "PROJECT_SEVERITY"])
              (imgOf "library/ubuntu" "v1" "library" "sha256:abc") 4%Z
              {| Sev := 5 |} eq_refl eq_refl eq_refl eq_refl)
           freshWriter eq_refl eq_refl ltac:(by vm_compute)).
Defined.

(** ** The release stage *)

(** C9: on release of a request that carries an image descriptor, every
    header of the buffered response goes out to the client with its
    value unchanged, with the status code the buffer holds (200 if it
    holds none) and, after what the connection already held, the buffered
    body; the buffer itself is left as it was.  A request without an image
    descriptor is handed to the next handler untouched. *)
Theorem funnelHandler_replays
    (next : Handler) (rw : nat) (req : Request) (st : State) :
  (ImageInfo req = None →
   funnelHandler_ServeHTTP next rw req st = next rw req st)
  ∧ (∀ img r src dst,
       ImageInfo req = Some img →
       rec st = Some r →
       r ≠ rw →
       writers st !! r = Some src →
       writers st !! rw = Some dst →
       wroteHeader dst = false →
       ∃ out,
         funnelHandler_ServeHTTP next rw req st
         = Some (tt, set_writers st (<[rw := out]> (writers st)))
         ∧ (∀ k v, HeaderMap src !! k = Some v → snapHeader out !! k = Some v)
         ∧ (Code src ≠ 0%Z → Code out = Code src)
         ∧ (Code src = 0%Z → Code out = 200%Z)
         ∧ Body out = Body dst +:+ Body src
         ∧ <[rw := out]> (writers st) !! r = Some src).
Proof.
  unfold funnelHandler_ServeHTTP. split.
  - by intros ->.
  - intros img r src dst -> Hrec Hne Hr Hrw Hfresh.
    exists (replayed src dst). unfold get_rec. munfold. rewrite Hrec.
    rewrite (copyResp_run _ _ _ _ _ Hne Hr Hrw).
    destruct (replayed_fresh src dst Hfresh) as (Hh & _ & Hc & Hb).
    split; [done|]. split; [done|].
    unfold Result_StatusCode in Hc.
    split; [intros Hz; by rewrite decide_False in Hc|].
    split; [intros Hz; by rewrite decide_True in Hc|].
    split; [done|].
    by rewrite list_lookup_insert_ne.
Qed.

(** A buffered 404 goes out as a 404. *)
Lemma funnelHandler_replays_witness :
  ∃ out,
    funnelHandler_ServeHTTP echoRegistry 0
      (pulling (imgOf "library/ubuntu" "v1" "library" "sha256:abc"))
      {| writers := [freshWriter;
                     write (writeHeader (setHeader newRecorder "Etag" "1") 404)
                       "body"];
         rec := Some 1%nat; trace := [] |}
    = Some (tt,
            {| writers := [out;
                           write (writeHeader (setHeader newRecorder "Etag" "1") 404)
                             "body"];
               rec := Some 1%nat; trace := [] |})
    ∧ snapHeader out !! "Etag" = Some ["1"]
    ∧ Code out = 404%Z
    ∧ Body out = "body".
Proof.
  destruct (proj2 (funnelHandler_replays echoRegistry 0
              (pulling (imgOf "library/ubuntu" "v1" "library" "sha256:abc"))
              {| writers := [freshWriter;
                             write (writeHeader
                                      (setHeader newRecorder "Etag" "1") 404)
                               "body"];
                 rec := Some 1%nat; trace := [] |})
             (imgOf "library/ubuntu" "v1" "library" "sha256:abc") 1%nat
             (write (writeHeader (setHeader newRecorder "Etag" "1") 404) "body")
             freshWriter
             eq_refl eq_refl (λ H, O_S 0 (eq_sym H)) eq_refl eq_refl eq_refl)
    as (out & Hrun & Hh & Hc & _ & Hb & _).
  exists out. split; [exact Hrun|].
  split; [apply Hh; reflexivity|].
  split; [apply Hc; discriminate | exact Hb].
Defined.

(** ** The url handler *)

Lemma copyResp_frame r rw st st' :
  copyResp r rw st = Some (tt, st') → rec st' = rec st ∧ trace st' = trace st.
Proof.
  unfold copyResp, WriteHeader, Write, update, load, store. munfold.
  destruct r as [r|]; [|done].
  destruct (writers st !! r) as [src|]; [|done].
  destruct (writers st !! rw) as [dst|]; [|done]. simpl.
  repeat (destruct (_ !! _); [|done]; simpl).
  by intros [= <-].
Qed.

(** C1: a matched GET manifest request whose repository path has fewer
    than two segments is answered with HTTP status 400, and the error
    body sent with it carries the code 500: the two numbers differ on
    this path. *)
Theorem urlHandler_bad_repository
    (E : Env) (next : Handler) (rw : nat) (req : Request) (st : State)
    (repo ref : string) (w : ResponseWriter) :
  MatchPullManifest (set_Path req (TrimPrefix (Path req) (RegistryProxyPrefix E)))
  = (true, repo, ref) →
  (length (SplitN repo "/" 2) < 2)%nat →
  writers st !! rw = Some w →
  wroteHeader w = false →
  ∃ out,
    urlHandler_ServeHTTP E next rw req st
    = Some (tt, set_writers st (<[rw := out]> (writers st)))
    ∧ Code out = StatusBadRequest
    ∧ Body out
      = Body w
        +:+ errorBody StatusInternalServerError ("Bad repository name: " +:+ repo)
        +:+ newline.
Proof.
  intros HM Hlen Hw Hfresh.
  exists (errorResponse w
            (errorBody StatusInternalServerError ("Bad repository name: " +:+ repo))
            StatusBadRequest).
  unfold urlHandler_ServeHTTP, urlHandler_intercept. rewrite HM. cbv iota.
  rewrite decide_True by done. munfold.
  rewrite marshalError_body by done.
  rewrite (http_Error_run _ _ _ _ _ Hw).
  split; [done|].
  by destruct (errorResponse_fresh w
                 (errorBody StatusInternalServerError
                    ("Bad repository name: " +:+ repo))
                 StatusBadRequest Hfresh) as (? & ? & _).
Qed.

Lemma urlHandler_bad_repository_witness :
  ∃ out,
    urlHandler_ServeHTTP (deploy openDeployment) echoRegistry 0
      (GET "/registryproxy/v2/singletoken/manifests/latest") oneClient
    = Some (tt, set_writers oneClient [out])
    ∧ Code out = 400%Z
    ∧ Body out
      = errorBody 500 "Bad repository name: singletoken" +:+ newline.
Proof.
  apply (urlHandler_bad_repository (deploy openDeployment) echoRegistry 0
           (GET "/registryproxy/v2/singletoken/manifests/latest") oneClient
           "singletoken" "latest" freshWriter).
  - by vm_compute.
  - vm_compute. lia.
  - reflexivity.
  - reflexivity.
Defined.

Lemma replayed_status src dst :
  wroteHeader dst = false → Code src ≠ 0%Z →
  Code (replayed src dst) = Code src.
Proof.
  intros Hfresh Hz. destruct (replayed_fresh src dst Hfresh) as (_ & _ & -> & _).
  unfold Result_StatusCode. by rewrite decide_False.
Qed.

(** C4: when the response buffered for a matched manifest pull has a
    status other than 200, urlHandler replays it to the client and
    returns: the client's connection gets the buffered status, the
    buffered headers and the buffered body, and nothing else changes
    after the buffering, in particular no call is added to the trace.
    The next handler has been called once, to fill the buffer, with the
    request as it came in, which each of the later stages hands on
    unchanged for want of an image descriptor; no image descriptor is
    built and nothing is attached to the request. *)
Theorem urlHandler_backend_error
    (E : Env) (next : Handler) (rw : nat) (req : Request) (st st1 : State)
    (repo ref : string) (r1 : nat) (w : ResponseWriter) :
  let req' := set_Path req (TrimPrefix (Path req) (RegistryProxyPrefix E)) in
  MatchPullManifest req' = (true, repo, ref) →
  (2 ≤ length (SplitN repo "/" 2))%nat →
  next (length (writers st)) req' (buffering st) = Some (tt, st1) →
  rec st1 = Some r1 →
  writers st1 !! r1 = Some w →
  Code w ≠ 0%Z →
  Code w ≠ StatusOK →
  (∀ dst,
     r1 ≠ rw →
     writers st1 !! rw = Some dst →
     wroteHeader dst = false →
     ∃ out,
       urlHandler_ServeHTTP E next rw req st
       = Some (tt, {| writers := <[rw := out]> (writers st1);
                      rec := rec st1; trace := trace st1 |})
       ∧ Code out = Code w
       ∧ (∀ k v, HeaderMap w !! k = Some v → snapHeader out !! k = Some v)
       ∧ (∀ k, HeaderMap w !! k = None →
            snapHeader out !! k = HeaderMap dst !! k)
       ∧ Body out = Body dst +:+ Body w
       ∧ <[rw := out]> (writers st1) !! r1 = Some w)
  ∧ urlHandler_ServeHTTP E next rw req st = copyResp (Some r1) rw st1
  ∧ (∀ st2, copyResp (Some r1) rw st1 = Some (tt, st2) →
       rec st2 = rec st1 ∧ trace st2 = trace st1)
  ∧ (ImageInfo req = None →
     ∀ n l,
       contentTrustHandler_ServeHTTP E n l req' = n l req'
       ∧ vulnerableHandler_ServeHTTP E n l req' = n l req'
       ∧ funnelHandler_ServeHTTP n l req' = n l req').
Proof.
  intros req' HM Hlen Hnext Hrec Hw Hz Hcode.
  assert (urlHandler_ServeHTTP E next rw req st = copyResp (Some r1) rw st1)
    as Hrun.
  { unfold urlHandler_ServeHTTP, urlHandler_intercept. fold req'. rewrite HM.
    cbv iota. rewrite decide_False by lia.
    unfold alloc, set_rec, get_rec, deref, load. munfold. simpl.
    change {| writers := writers st ++ [newRecorder];
              rec := Some (length (writers st)); trace := trace st |}
      with (buffering st).
    rewrite Hnext, Hrec, Hw.
    rewrite decide_True
      by (unfold Result_StatusCode; by rewrite decide_False).
    rewrite Hrec.
    by destruct (copyResp _ _ _) as [[[] ?]|]. }
  split; [|split; [done|split]].
  - intros dst Hne Hdst Hfresh. exists (replayed w dst).
    rewrite Hrun, (copyResp_run _ _ _ _ _ Hne Hw Hdst).
    destruct (replayed_fresh w dst Hfresh) as (Hh & Hh' & _ & Hb).
    split; [done|]. split; [by apply replayed_status|].
    split; [done|]. split; [done|]. split; [done|].
    by rewrite list_lookup_insert_ne.
  - intros st2. apply copyResp_frame.
  - intros Hnone n l.
    rewrite contentTrustHandler_skip, vulnerableHandler_skip by auto.
    unfold funnelHandler_ServeHTTP. by rewrite (Hnone : ImageInfo req' = None).
Qed.

(** A registry without the manifest: the client sees its 404, although
    content trust is enforced for the project, and the trust subsystem is
    not asked. *)
Lemma urlHandler_backend_error_witness :
  ∃ out,
    urlHandler_ServeHTTP (deploy (trustDeployment []))
      (policyStages (deploy (trustDeployment [])) emptyRegistry) 0
      (GET "/registryproxy/v2/library/ubuntu/manifests/v1") oneClient
    = Some (tt,
            {| writers := [out;
                           write (writeHeader newRecorder 404)
                             "manifest unknown"];
               rec := Some 1%nat; trace := [] |})
    ∧ Code out = 404%Z
    ∧ Body out = "manifest unknown".
Proof.
  destruct (proj1 (urlHandler_backend_error (deploy (trustDeployment []))
              (policyStages (deploy (trustDeployment [])) emptyRegistry) 0
              (GET "/registryproxy/v2/library/ubuntu/manifests/v1") oneClient
              {| writers := [freshWriter;
                             write (writeHeader newRecorder 404)
                               "manifest unknown"];
                 rec := Some 1%nat; trace := [] |}
              "library/ubuntu" "v1" 1%nat
              (write (writeHeader newRecorder 404) "manifest unknown")
              ltac:(by vm_compute) ltac:(vm_compute; lia)
              eq_refl eq_refl eq_refl
              ltac:(discriminate) ltac:(discriminate))
            freshWriter (λ H, O_S 0 (eq_sym H)) eq_refl eq_refl)
    as (out & Hrun & Hc & _ & _ & Hb & _).
  exists out. split; [exact Hrun|]. split; [exact Hc | exact Hb].
Defined.

(** ** Two requests in flight *)

(** C3: the buffered response lives in the package variable [rec].
    Served one after the other, two manifest pulls each receive their own
    manifest; when the second request is buffered between the buffering
    and the release of the first, the first client receives the second
    request's manifest. *)
Theorem interleaved_requests_share_rec :
  let E := deploy openDeployment in
  let reqA := GET "/registryproxy/v2/library/alpha/manifests/v1" in
  let reqB := GET "/registryproxy/v2/library/beta/manifests/v1" in
  sent ((chain E echoRegistry 0 reqA;; chain E echoRegistry 1 reqB) twoClients) 0
  = Some (200%Z,
          [(DockerContentDigest, ["sha256:/v2/library/alpha/manifests/v1"])],
          "manifest of /v2/library/alpha/manifests/v1")
  ∧ sent (interleaved E echoRegistry 0 reqA 1 reqB twoClients) 0
    = Some (200%Z,
            [(DockerContentDigest, ["sha256:/v2/library/beta/manifests/v1"])],
            "manifest of /v2/library/beta/manifests/v1").
Proof. split; by vm_compute. Qed.

(** ** The chain on the specification's examples *)

(** Both policies disabled: the client receives the registry's response. *)
Example chain_released :
  sent (chain (deploy openDeployment) echoRegistry 0
          (GET "/registryproxy/v2/library/ubuntu/manifests/v1") oneClient) 0
  = sent (echoRegistry 0
            (GET "/v2/library/ubuntu/manifests/v1") oneClient) 0.
Proof. by vm_compute. Qed.

(** A request that is no manifest pull goes straight to the registry. *)
Example chain_passthrough :
  chain (deploy (trustDeployment [])) echoRegistry 0
    (GET "/registryproxy/v2/library/ubuntu/tags/list") oneClient
  = echoRegistry 0 (GET "/v2/library/ubuntu/tags/list") oneClient.
Proof. by vm_compute. Qed.

(** Content trust enabled and the tag absent from the signed targets. *)
Example chain_not_signed :
  sent (chain (deploy (trustDeployment [signed "v0" "000"])) echoRegistry 0
          (GET "/registryproxy/v2/library/ubuntu/manifests/v1") oneClient) 0
  = Some (412%Z,
          [("Content-Type", ["text/plain; charset=utf-8"]);
           ("X-Content-Type-Options", ["nosniff"])],
          errorBody 412 msgNotSigned +:+ newline).
Proof. by vm_compute. Qed.

(** Image severity high against the threshold medium. *)
Example chain_too_severe :
  (λ r, r.1.1) <$>
    sent (chain (deploy (scanDeployment "medium" (Some {| Sev := 5 |}, None)))
            echoRegistry 0
            (GET "/registryproxy/v2/library/ubuntu/manifests/v1") oneClient) 0
  = Some 412%Z.
Proof. by vm_compute. Qed.

(** The registry answers 404: the client sees it and no policy is asked. *)
Example chain_not_found :
  (λ o, (sent o 0, (trace ∘ snd) <$> o))
    (chain (deploy (trustDeployment [])) emptyRegistry 0
       (GET "/registryproxy/v2/library/ubuntu/manifests/v1") oneClient)
  = (Some (404%Z, [], "manifest unknown"), Some []).
Proof. by vm_compute. Qed.

(** * Further properties of the code *)

(** ** Splitting the repository *)

Lemma matches_classes_within P r w c :
  classes_within P r → matches r w c → Forall P w.
Proof.
  intros HP Hm. induction Hm; simpl in HP; try done.
  - constructor; [by apply HP | done].
  - destruct HP. apply Forall_app; auto.
  - apply Forall_app; auto.
  - apply Forall_app; auto.
  - auto.
Qed.

Lemma token_chars t :
  is_token t → Forall (λ a, is_alnum a = true ∨ is_sep a = true) (chars t).
Proof.
  apply matches_classes_within. unfold token_re, Plus. simpl. naive_solver.
Qed.

Lemma token_no_slash t : is_token t → slash ∉ chars t.
Proof.
  intros Ht%token_chars Hin. rewrite Forall_forall in Ht.
  by destruct (Ht _ Hin).
Qed.

Lemma token_nonempty t : is_token t → t ≠ "".
Proof.
  unfold is_token, token_re, Plus. intros H ->. simpl in H.
  apply matches_Cat_inv in H as (w1 & w2 & c1 & c2 & Hw & _ & H1 & _).
  apply matches_Cat_inv in H1 as (w3 & w4 & c3 & c4 & -> & _ & H3 & _).
  apply matches_Chr_inv in H3 as (a & -> & _). done.
Qed.

Lemma cut_unfold (sep s : list ascii) :
  cut sep s
  = if decide (sep `prefix_of` s) then Some ([], drop (length sep) s)
    else match s with
         | [] => None
         | c :: s' => (λ ab, (c :: ab.1, ab.2)) <$> cut sep s'
         end.
Proof. by destruct s. Qed.

Lemma slash_prefix (s : list ascii) :
  [slash] `prefix_of` s ↔ ∃ s', s = slash :: s'.
Proof. split; intros [k Hk]; exists k; by simplify_eq/=. Qed.

Lemma cut_absent (t : list ascii) : slash ∉ t → cut [slash] t = None.
Proof.
  induction t as [|a t IH]; intros Hn; rewrite cut_unfold.
  - rewrite decide_False; [done|]. by intros [? [=]]%slash_prefix.
  - rewrite decide_False.
    + rewrite IH; [done|]. set_solver.
    + intros [? [= -> _]]%slash_prefix. set_solver.
Qed.

Lemma cut_first (t rest : list ascii) :
  slash ∉ t → cut [slash] (t ++ slash :: rest) = Some (t, rest).
Proof.
  induction t as [|a t IH]; intros Hn; rewrite cut_unfold.
  - rewrite decide_True; [done|]. apply slash_prefix. by exists rest.
  - rewrite decide_False.
    + simpl. rewrite IH; [done|]. set_solver.
    + intros [? [= -> _]]%slash_prefix. set_solver.
Qed.

Lemma SplitN_single (t : string) :
  slash ∉ chars t → SplitN t "/" 2 = [t].
Proof.
  intros Hn. unfold SplitN. simpl.
  change (chars "/") with [slash]. rewrite cut_absent by done.
  simpl. by rewrite str_chars.
Qed.

Lemma SplitN_first (t rest : string) :
  slash ∉ chars t → SplitN (t +:+ "/" +:+ rest) "/" 2 = [t; rest].
Proof.
  intros Hn. unfold SplitN. simpl. rewrite !chars_app.
  change (chars "/") with [slash]. simpl. rewrite cut_first by done.
  simpl. by rewrite !str_chars.
Qed.

Lemma join_cons2 sep (t u : string) (l : list string) :
  join sep (t :: u :: l) = t +:+ sep +:+ join sep (u :: l).
Proof. done. Qed.

Lemma join_tokens_nonempty (u : string) (l : list string) :
  is_token u → join "/" (u :: l) ≠ "".
Proof.
  intros Hu%token_nonempty. destruct l as [|v l]; [done|].
  rewrite join_cons2. by destruct u.
Qed.

Lemma repository_split (req : Request) (repo ref : string) :
  MatchPullManifest req = (true, repo, ref) →
  ((length (SplitN repo "/" 2) < 2)%nat ↔ is_token repo)
  ∧ ((2 ≤ length (SplitN repo "/" 2))%nat →
     ∃ project rest,
       is_token project ∧ rest ≠ "" ∧
       repo = project +:+ "/" +:+ rest ∧
       SplitN repo "/" 2 = [project; rest]).
Proof.
  intros (_ & segs & tail & Hne & Hsegs & _ & -> & _)%MatchPullManifest_true.
  destruct segs as [|t [|u l]]; [done| |].
  - apply Forall_inv in Hsegs. simpl.
    rewrite SplitN_single by by apply token_no_slash.
    simpl. split; [split; [done | lia] | lia].
  - apply Forall_cons in Hsegs as [Ht Hsegs].
    rewrite join_cons2, SplitN_first by by apply token_no_slash.
    simpl. split.
    + split; [lia|]. intros Htok%token_no_slash. exfalso. apply Htok.
      rewrite !chars_app. set_solver.
    + intros _. exists t, (join "/" (u :: l)).
      split; [done|]. split; [|done].
      apply join_tokens_nonempty. by apply Forall_inv in Hsegs.
Qed.


(** X1: what strings.SplitN makes of the repository MatchPullManifest
    returns.  It has fewer than two components exactly when the
    repository is a single token; otherwise the first component is the
    first token, a project name without a slash, and the second is the
    non-empty remainder after the first slash. *)
Theorem repository_components (req : Request) (repo ref : string) :
  MatchPullManifest req = (true, repo, ref) →
  ((length (SplitN repo "/" 2) < 2)%nat ↔ is_token repo)
  ∧ ((2 ≤ length (SplitN repo "/" 2))%nat →
     ∃ project rest,
       is_token project ∧ rest ≠ "" ∧
       repo = project +:+ "/" +:+ rest ∧
       SplitN repo "/" 2 = [project; rest]).
Proof. apply repository_split. Qed.

Lemma repository_components_witness :
  ∃ project rest,
    is_token project ∧ rest ≠ "" ∧
    "library/ubuntu/xenial" = project +:+ "/" +:+ rest ∧
    SplitN "library/ubuntu/xenial" "/" 2 = [project; rest].
Proof.
  apply (proj2 (repository_components
                  (GET "/v2/library/ubuntu/xenial/manifests/latest")
                  "library/ubuntu/xenial" "latest" ltac:(by vm_compute))).
  vm_compute. lia.
Defined.

(** ** The url handler on the other paths *)

Lemma TrimPrefix_app (prefix s : string) :
  TrimPrefix (prefix +:+ s) prefix = s.
Proof.
  unfold TrimPrefix. rewrite chars_app.
  rewrite decide_True by (by eexists).
  by rewrite drop_app_length, str_chars.
Qed.

Lemma TrimPrefix_other (prefix s : string) :
  (∀ p, s ≠ prefix +:+ p) → TrimPrefix s prefix = s.
Proof.
  intros H. unfold TrimPrefix. rewrite decide_False; [done|].
  intros [k Hk]. apply (H (str k)). apply chars_inj.
  by rewrite chars_app, chars_str.
Qed.

(** X2: the url handler takes the registry prefix off the path, if the
    path begins with it, and leaves the method and the context alone.  A
    request that is not a GET, or whose path so trimmed does not begin
    with a manifest path, goes to the next handler with the trimmed path
    and in the state it came in: no recorder is made, [rec] is not
    assigned and nothing is written. *)
Theorem urlHandler_unmatched
    (E : Env) (next : Handler) (rw : nat) (req : Request) (st : State) :
  let req' := set_Path req (TrimPrefix (Path req) (RegistryProxyPrefix E)) in
  (Method req ≠ "GET" ∨ ¬ has_manifest_prefix (Path req') →
   urlHandler_ServeHTTP E next rw req st = next rw req' st)
  ∧ Method req' = Method req
  ∧ ImageInfo req' = ImageInfo req
  ∧ (∀ p, Path req = RegistryProxyPrefix E +:+ p → Path req' = p)
  ∧ ((∀ p, Path req ≠ RegistryProxyPrefix E +:+ p) → Path req' = Path req).
Proof.
  intros req'. split; [|split; [done|split; [done|split]]].
  - intros H.
    assert (MatchPullManifest req' = (false, "", "")) as HM.
    { apply MatchPullManifest_false.
      destruct (MatchPullManifest req').1.1 eqn:Hflag; [|done].
      apply MatchPullManifest_flag in Hflag as [HG Hp]. by destruct H. }
    unfold urlHandler_ServeHTTP, urlHandler_intercept. fold req'.
    by rewrite HM.
  - intros p Hp. simpl. by rewrite Hp, TrimPrefix_app.
  - intros Hp. simpl. by apply TrimPrefix_other.
Qed.

Lemma urlHandler_unmatched_witness :
  urlHandler_ServeHTTP (deploy (trustDeployment [])) echoRegistry 0
    (mkRequest "PUT" "/registryproxy/v2/library/ubuntu/manifests/v1" None)
    oneClient
  = echoRegistry 0 (mkRequest "PUT" "/v2/library/ubuntu/manifests/v1" None)
      oneClient.
Proof.
  apply (proj1 (urlHandler_unmatched (deploy (trustDeployment []))
                  echoRegistry 0
                  (mkRequest "PUT"
                     "/registryproxy/v2/library/ubuntu/manifests/v1" None)
                  oneClient)).
  left. discriminate.
Defined.

Lemma urlHandler_buffered
    (E : Env) (next : Handler) (rw : nat) (req : Request) (st st1 : State)
    (repo ref : string) (r1 : nat) (w : ResponseWriter) :
  let req' := set_Path req (TrimPrefix (Path req) (RegistryProxyPrefix E)) in
  MatchPullManifest req' = (true, repo, ref) →
  (2 ≤ length (SplitN repo "/" 2))%nat →
  next (length (writers st)) req' (buffering st) = Some (tt, st1) →
  rec st1 = Some r1 →
  writers st1 !! r1 = Some w →
  urlHandler_ServeHTTP E next rw req st
  = if decide (Result_StatusCode w ≠ StatusOK)
    then copyResp (Some r1) rw st1
    else next rw
           (WithImageInfo req'
              {| repository := repo; tag := ref;
                 projectName := default "" (head (SplitN repo "/" 2));
                 digest := Header_Get (HeaderMap w) DockerContentDigest |})
           st1.
Proof.
  intros req' HM Hlen Hnext Hrec Hw.
  unfold urlHandler_ServeHTTP, urlHandler_intercept. fold req'. rewrite HM.
  cbv iota. rewrite decide_False by lia.
  unfold alloc, set_rec, get_rec, deref, load. munfold. simpl.
  change {| writers := writers st ++ [newRecorder];
            rec := Some (length (writers st)); trace := trace st |}
    with (buffering st).
  rewrite Hnext, Hrec, Hw.
  destruct (decide (Result_StatusCode w ≠ StatusOK)).
  - rewrite Hrec. by destruct (copyResp _ _ _) as [[[] ?]|].
  - by rewrite Hrec, Hw.
Qed.

(** X3: a matched manifest pull whose buffered response has status 200 is
    handed to the next handler a second time, now on the client's writer
    and carrying the image descriptor: the repository and reference that
    MatchPullManifest returned, the first token of the repository as
    project name, and as digest the first Docker-Content-Digest value of
    the buffered response, the empty string when the registry sent none. *)
Theorem urlHandler_annotates
    (E : Env) (next : Handler) (rw : nat) (req : Request) (st st1 : State)
    (repo ref : string) (r1 : nat) (w : ResponseWriter) :
  let req' := set_Path req (TrimPrefix (Path req) (RegistryProxyPrefix E)) in
  MatchPullManifest req' = (true, repo, ref) →
  (2 ≤ length (SplitN repo "/" 2))%nat →
  next (length (writers st)) req' (buffering st) = Some (tt, st1) →
  rec st1 = Some r1 →
  writers st1 !! r1 = Some w →
  Code w = StatusOK ∨ Code w = 0%Z →
  ∃ project rest,
    is_token project ∧ repo = project +:+ "/" +:+ rest ∧
    urlHandler_ServeHTTP E next rw req st
    = next rw
        (WithImageInfo req'
           {| repository := repo; tag := ref; projectName := project;
              digest := Header_Get (HeaderMap w) DockerContentDigest |})
        st1
    ∧ (∀ v vs, HeaderMap w !! DockerContentDigest = Some (v :: vs) →
         Header_Get (HeaderMap w) DockerContentDigest = v)
    ∧ (HeaderMap w !! DockerContentDigest = None →
       Header_Get (HeaderMap w) DockerContentDigest = "").
Proof.
  intros req' HM Hlen Hnext Hrec Hw Hcode.
  destruct (proj2 (repository_split _ _ _ HM) Hlen)
    as (project & rest & Hproj & _ & Hrepo & Hsplit).
  exists project, rest. split; [done|]. split; [done|]. split.
  - rewrite (urlHandler_buffered E next rw req st st1 repo ref r1 w) by done.
    rewrite decide_False; [by rewrite Hsplit|].
    unfold Result_StatusCode. intros Hne. apply Hne.
    destruct Hcode as [Hc|Hc]; [|by rewrite decide_True].
    destruct (decide _); done.
  - unfold Header_Get. split; [by intros v vs -> | by intros ->].
Qed.

Lemma urlHandler_annotates_witness :
  ∃ project rest,
    is_token project ∧ "library/ubuntu" = project +:+ "/" +:+ rest ∧
    urlHandler_ServeHTTP (deploy openDeployment) plainRegistry 0
      (GET "/registryproxy/v2/library/ubuntu/manifests/v1") oneClient
    = plainRegistry 0
        (WithImageInfo (GET "/v2/library/ubuntu/manifests/v1")
           {| repository := "library/ubuntu"; tag := "v1";
              projectName := project; digest := "" |})
        {| writers := [freshWriter;
                       write (writeHeader newRecorder 200) "manifest"];
           rec := Some 1%nat; trace := [] |}.
Proof.
  destruct (urlHandler_annotates (deploy openDeployment) plainRegistry
              0 (GET "/registryproxy/v2/library/ubuntu/manifests/v1")
              oneClient
              {| writers := [freshWriter;
                             write (writeHeader newRecorder 200) "manifest"];
                 rec := Some 1%nat; trace := [] |}
              "library/ubuntu" "v1" 1%nat
              (write (writeHeader newRecorder 200) "manifest")
              ltac:(by vm_compute) ltac:(vm_compute; lia)
              eq_refl eq_refl eq_refl (or_introl eq_refl))
    as (project & rest & Hp & Hr & Hrun & _).
  exists project, rest. split; [exact Hp|]. split; [exact Hr|].
  exact Hrun.
Defined.

(** ** The vulnerability stage when it does not enforce *)

(** X4: the vulnerability stage hands the request on without asking the
    scan store when the request carries no image descriptor, when Clair
    is not deployed, or when the project's policy does not prevent
    vulnerable images; in the last case the only calls made are those of
    the policy lookup. *)
Theorem vulnerableHandler_skips
    (E : Env) (next : Handler) (rw : nat) (req : Request) (st : State) :
  (ImageInfo req = None ∨ WithClair E = false →
   vulnerableHandler_ServeHTTP E next rw req st = next rw req st)
  ∧ (∀ img threshold st1,
       ImageInfo req = Some img →
       WithClair E = true →
       vulnerablePolicy (getPolicyChecker E) (projectName img) st
       = Some ((false, threshold), st1) →
       vulnerableHandler_ServeHTTP E next rw req st = next rw req st1
       ∧ ∃ evs, st1 = add_trace st evs ∧ Forall policy_event evs).
Proof.
  split.
  - intros H. by rewrite vulnerableHandler_skip.
  - intros img threshold st1 Himg HC Hpol.
    split; [|by eapply vulnerablePolicy_frame].
    unfold vulnerableHandler_ServeHTTP. rewrite Himg, HC. cbn [negb].
    munfold. by rewrite Hpol.
Qed.

Lemma vulnerableHandler_skips_witness :
  vulnerableHandler_ServeHTTP
    (deploy (scanDeployment "high" (Some {| Sev := 5 |}, None)))
    echoRegistry 0 (GET "/v2/library/ubuntu/manifests/v1") oneClient
  = echoRegistry 0 (GET "/v2/library/ubuntu/manifests/v1") oneClient.
Proof.
  apply (proj1 (vulnerableHandler_skips
                  (deploy (scanDeployment "high" (Some {| Sev := 5 |}, None)))
                  echoRegistry 0 (GET "/v2/library/ubuntu/manifests/v1")
                  oneClient)).
  left. reflexivity.
Defined.

(** ** The project manager's answers *)



(** ** copyResp in full *)

(** X6: copyResp merges the recorder's headers into the writer's header
    map: the recorder's values replace the writer's for the same key and
    the writer's other headers stay.  The body is appended to what the
    writer holds.  If the writer's status line has already gone out, its
    status and the headers sent with it stay as they were; otherwise the
    recorder's status (200 if it holds none) goes out with the merged
    headers.  A nil recorder panics. *)
Theorem copyResp_result
    (r rw : nat) (st : State) (src dst : ResponseWriter) :
  r ≠ rw →
  writers st !! r = Some src →
  writers st !! rw = Some dst →
  ∃ out,
    copyResp (Some r) rw st
    = Some (tt, set_writers st (<[rw := out]> (writers st)))
    ∧ HeaderMap out = HeaderMap src ∪ HeaderMap dst
    ∧ Body out = Body dst +:+ Body src
    ∧ wroteHeader out = true
    ∧ (wroteHeader dst = true →
       Code out = Code dst ∧ snapHeader out = snapHeader dst)
    ∧ (wroteHeader dst = false →
       (Code src ≠ 0%Z → Code out = Code src)
       ∧ (Code src = 0%Z → Code out = 200%Z)
       ∧ snapHeader out = HeaderMap src ∪ HeaderMap dst)
    ∧ copyResp None rw st = None.
Proof.
  intros Hne Hr Hrw. exists (replayed src dst).
  split; [by apply copyResp_run|].
  unfold replayed, write, writeHeader, copyHeaders, Result_StatusCode. simpl.
  rewrite map_fold_insert_union.
  destruct (wroteHeader dst) eqn:Hd; simpl; rewrite ?Hd; simpl;
    repeat split; intros; try done; by destruct (decide _).
Qed.

Lemma copyResp_result_witness :
  ∃ out,
    copyResp (Some 1%nat) 0
      {| writers := [setHeader (setHeader freshWriter "Etag" "old") "Via" "proxy";
                     write (setHeader newRecorder "Etag" "new") "body"];
         rec := Some 1%nat; trace := [] |}
    = Some (tt,
            {| writers := [out; write (setHeader newRecorder "Etag" "new") "body"];
               rec := Some 1%nat; trace := [] |})
    ∧ HeaderMap out
      = HeaderMap (write (setHeader newRecorder "Etag" "new") "body")
        ∪ HeaderMap (setHeader (setHeader freshWriter "Etag" "old") "Via" "proxy")
    ∧ Body out = "body".
Proof.
  destruct (copyResp_result 1 0
              {| writers := [setHeader (setHeader freshWriter "Etag" "old")
                               "Via" "proxy";
                             write (setHeader newRecorder "Etag" "new") "body"];
                 rec := Some 1%nat; trace := [] |}
              (write (setHeader newRecorder "Etag" "new") "body")
              (setHeader (setHeader freshWriter "Etag" "old") "Via" "proxy")
              (λ H, O_S 0 (eq_sym H)) eq_refl eq_refl)
    as (out & Hrun & Hh & Hb & _).
  exists out. split; [exact Hrun|]. split; [exact Hh | exact Hb].
Defined.

(** ** matchNotaryDigest never matches without a signed target *)

(** X7: matchNotaryDigest reports a match only when the trust subsystem
    answered without error and some target of its answer carries the
    descriptor's reference as tag and has the descriptor's digest; a
    result that carries an error is never a match. *)
Theorem matchNotaryDigest_sound
    (E : Env) (img : imageInfo) (st st' : State) (err : option error) :
  matchNotaryDigest E img st = Some ((true, err), st') →
  err = None
  ∧ ∃ targets t,
      GetInternalTargets E (NotaryEndpoint E) tokenUsername (repository img)
      = (targets, None)
      ∧ t ∈ targets ∧ Tag t = tag img
      ∧ DigestFromTarget E t = (digest img, None).
Proof.
  rewrite matchNotaryDigest_run. intros [= H _].
  destruct (GetInternalTargets _ _ _ _) as [targets [e|]] eqn:HG; [done|].
  rewrite matchTargets_first_tagged in H.
  pose proof (first_tagged_split (tag img) targets) as Hsplit.
  destruct (first_tagged _ _) as [t|]; [|done].
  destruct Hsplit as (pre & post & -> & _ & Ht).
  destruct (DigestFromTarget E t) as [d [e|]] eqn:Hd; [done|].
  injection H as Heq <-. apply String.eqb_eq in Heq as <-.
  split; [done|]. exists (pre ++ t :: post), t.
  split; [done|]. split; [set_solver|]. split; [exact Ht | exact Hd].
Qed.

Lemma matchNotaryDigest_sound_witness :
  ∃ targets t,
    GetInternalTargets
      (deploy (trustDeployment [signed "v0" "000"; signed "v1" "abc"]))
      "http://notary-server:4443" "harbor-ui" "library/ubuntu"
    = (targets, None)
    ∧ t ∈ targets ∧ Tag t = "v1"
    ∧ sha256Digest t = ("sha256:abc", None).
Proof.
  apply (proj2 (matchNotaryDigest_sound
                  (deploy (trustDeployment [signed "v0" "000"; signed "v1" "abc"]))
                  (imgOf "library/ubuntu" "v1" "library" "sha256:abc")
                  oneClient
                  (add_trace oneClient
                     [EvGetInternalTargets "http://notary-server:4443"
                        "harbor-ui" "library/ubuntu"])
                  None eq_refl)).
Defined.

(** ** The chain with both policies off *)

Lemma policyStages_passthrough E backend rw req :
  ImageInfo req = None → policyStages E backend rw req = backend rw req.
Proof.
  intros H. unfold policyStages.
  rewrite contentTrustHandler_skip, vulnerableHandler_skip by auto.
  unfold funnelHandler_ServeHTTP. by rewrite H.
Qed.

Lemma policyStages_disabled E backend rw req st img r :
  WithNotary E = false → WithClair E = false →
  ImageInfo req = Some img → rec st = Some r →
  policyStages E backend rw req st = copyResp (Some r) rw st.
Proof.
  intros HN HC Himg Hrec. unfold policyStages.
  rewrite contentTrustHandler_skip, vulnerableHandler_skip by auto.
  unfold funnelHandler_ServeHTTP, get_rec. munfold. by rewrite Himg, Hrec.
Qed.



(** ** What MatchPullManifest can return *)

Lemma ends_with_app p w1 w2 : ends_with p w2 → ends_with p (w1 ++ w2).
Proof. intros (l & b & -> & Hb). exists (w1 ++ l), b. by rewrite app_assoc. Qed.

Lemma starts_with_app p w1 w2 : starts_with p w1 → starts_with p (w1 ++ w2).
Proof. intros (a & l & -> & Ha). by exists a, (l ++ w2). Qed.

Lemma plus_chr_ends p w c :
  matches (Plus (Chr p)) w c → starts_with p w ∧ ends_with p w.
Proof.
  intros (w1 & w2 & c1 & c2 & -> & _ & H1 & H2)%matches_Cat_inv.
  apply matches_Chr_inv in H1 as (a & -> & Ha & _).
  apply matches_Star_Chr in H2 as [_ HF].
  split; [by exists a, w2|].
  induction w2 as [|x w2 _] using rev_ind.
  - by exists [], a.
  - apply Forall_app in HF as [_ Hx%Forall_inv].
    exists ([a] ++ w2), x. by rewrite <- app_assoc.
Qed.

Lemma token_tail_ends w c :
  matches (Star (Cat (Chr is_sep) (Plus (Chr is_alnum)))) w c →
  w = [] ∨ ends_with is_alnum w.
Proof.
  intros H. remember (Star (Cat (Chr is_sep) (Plus (Chr is_alnum)))) as r eqn:Hr.
  induction H; try done; injection Hr as ->; [by left|].
  right. destruct IHmatches2 as [-> | He]; [done| |by apply ends_with_app].
  rewrite app_nil_r.
  apply matches_Cat_inv in H0 as (w3 & w4 & c3 & c4 & -> & _ & _ & H4).
  apply ends_with_app. by apply plus_chr_ends in H4 as [_ ?].
Qed.

Lemma token_ends t :
  is_token t → starts_with is_alnum (chars t) ∧ ends_with is_alnum (chars t).
Proof.
  unfold is_token, token_re.
  intros (w1 & w2 & c1 & c2 & -> & _ & H1 & H2)%matches_Cat_inv.
  apply plus_chr_ends in H1 as [Hs He].
  split; [by apply starts_with_app|].
  apply token_tail_ends in H2 as [-> | H2];
    [by rewrite app_nil_r | by apply ends_with_app].
Qed.

Lemma join_tokens_chars segs :
  segs ≠ [] → Forall is_token segs →
  Forall (λ a, is_alnum a = true ∨ is_sep a = true ∨ a = slash)
    (chars (join "/" segs))
  ∧ starts_with is_alnum (chars (join "/" segs))
  ∧ ends_with is_alnum (chars (join "/" segs)).
Proof.
  intros Hne Hsegs. induction Hsegs as [|t segs Ht Hsegs IH]; [done|].
  pose proof (token_chars _ Ht) as Hc. pose proof (token_ends _ Ht) as [Hs He].
  assert (Forall (λ a, is_alnum a = true ∨ is_sep a = true ∨ a = slash) (chars t))
    as Hc' by (eapply Forall_impl; [exact Hc | intros a [?|?]; auto]).
  destruct segs as [|u l]; [done|].
  rewrite join_cons2, !chars_app.
  destruct IH as (IHc & _ & IHe); [done|].
  split; [|split].
  - apply Forall_app. split; [done|]. apply Forall_app. split; [|done].
    constructor; [by right; right | constructor].
  - by apply starts_with_app.
  - rewrite app_assoc. by apply ends_with_app.
Qed.

Lemma reference_chars ref :
  is_reference ref → Forall (λ a, is_refchar a = true) (chars ref).
Proof.
  intros [_ H]. revert H. apply matches_classes_within.
  unfold reference_re. simpl. split; [|done].
  intros a Ha. unfold is_refchar. by rewrite Ha.
Qed.

(** X9: what a match returns.  The reference has 1 to 128 characters, all
    of [[\w.:-]], so it has no slash in it; the repository is made of
    [[a-z0-9._-]] and slashes only, and begins and ends with a character
    of [[a-z0-9]], so it is not empty and has no slash at either end. *)
Theorem MatchPullManifest_output (req : Request) (repo ref : string) :
  MatchPullManifest req = (true, repo, ref) →
  (1 ≤ String.length ref ≤ 128)%nat
  ∧ Forall (λ a, is_refchar a = true) (chars ref)
  ∧ (slash ∉ chars ref)
  ∧ Forall (λ a, is_alnum a = true ∨ is_sep a = true ∨ a = slash) (chars repo)
  ∧ starts_with is_alnum (chars repo)
  ∧ ends_with is_alnum (chars repo).
Proof.
  intros (_ & segs & tail & Hne & Hsegs & Href & -> & _)%MatchPullManifest_true.
  pose proof (reference_chars _ Href) as Hc.
  split; [by destruct Href|]. split; [done|]. split.
  - intros Hin. rewrite Forall_forall in Hc. by specialize (Hc _ Hin).
  - by apply join_tokens_chars.
Qed.

Lemma MatchPullManifest_output_witness :
  (1 ≤ String.length "14.04" ≤ 128)%nat
  ∧ Forall (λ a, is_refchar a = true) (chars "14.04")
  ∧ (slash ∉ chars "14.04")
  ∧ Forall (λ a, is_alnum a = true ∨ is_sep a = true ∨ a = slash)
      (chars "library/ubuntu")
  ∧ starts_with is_alnum (chars "library/ubuntu")
  ∧ ends_with is_alnum (chars "library/ubuntu").
Proof.
  apply (MatchPullManifest_output
           (GET "/v2/library/ubuntu/manifests/14.04/extra")
           "library/ubuntu" "14.04").
  by vm_compute.
Defined.

(** ** The order of the search *)

Section SearchOrder.

Implicit Types (l : list (list ascii * caps)) (e : list ascii * caps).
Implicit Types (s : list ascii).

Lemma bind_relabel l (f : caps → caps) :
  l ≫= (λ '(s2, c2), [(s2, f c2)]) = relabel f <$> l.
Proof. induction l as [|[s c] l IH]; [done|]. by rewrite bind_cons, fmap_cons, IH. Qed.

Lemma increasing_fmap l (g : list ascii * caps → list ascii * caps) :
  (∀ e, (g e).1 = e.1) → increasing l → increasing (g <$> l).
Proof.
  intros Hg. induction l as [|e l IH]; [done|]. intros [Hlt Hl].
  rewrite fmap_cons. split; [|auto].
  apply Forall_fmap. eapply Forall_impl; [exact Hlt|].
  intros e' ?. simpl. by rewrite !Hg.
Qed.

Lemma increasing_relabel l f : increasing l → increasing (relabel f <$> l).
Proof. by apply increasing_fmap. Qed.

Lemma increasing_app l1 l2 :
  increasing l1 → increasing l2 →
  (∀ x y, x ∈ l1 → y ∈ l2 → (length x.1 < length y.1)%nat) →
  increasing (l1 ++ l2).
Proof.
  induction l1 as [|e l1 IH]; [done|]. intros [Hlt Hl1] Hl2 Hx. simpl. split.
  - apply Forall_app. split; [done|]. apply Forall_forall.
    intros y Hy. apply Hx; [left | done].
  - apply IH; [done..|]. intros x y Hx' Hy. apply Hx; [by right | done].
Qed.

Lemma relabel_rest_bound l f n :
  Forall (λ e, (length e.1 ≤ n)%nat) l →
  Forall (λ e, (length e.1 ≤ n)%nat) (relabel f <$> l).
Proof. intros H. apply Forall_fmap. by eapply Forall_impl. Qed.

(** Greedy repetition of a search with at most one result lists the rests
    from the shortest to the text itself. *)
Lemma star_iter_deterministic f n s :
  deterministic f →
  increasing (star_iter f n s)
  ∧ Forall (λ e, (length e.1 ≤ length s)%nat) (star_iter f n s).
Proof.
  intros Hf. revert s. induction n as [|n IH]; intros s; simpl.
  { split; [done|]. by repeat constructor. }
  destruct (Hf s) as [Hlen Hprog].
  destruct (f s) as [|[s1 c1] [|? ?]]; [| |simpl in Hlen; lia].
  - simpl. split; [done|]. by repeat constructor.
  - apply Forall_inv in Hprog. simpl in Hprog.
    rewrite bind_singleton, decide_True by done.
    rewrite bind_relabel. destruct (IH s1) as [Hinc Hb].
    split.
    + apply increasing_app; [by apply increasing_relabel | done |].
      intros x y Hx ->%list_elem_of_singleton. simpl.
      apply (relabel_rest_bound _ (λ c2, c1 ++ c2)) in Hb.
      rewrite Forall_forall in Hb. specialize (Hb _ Hx). simpl in Hb. lia.
    + apply Forall_app. split; [|by repeat constructor].
      apply Forall_fmap. eapply Forall_impl; [exact Hb|].
      intros e ?. simpl in *. lia.
Qed.

Lemma upto_iter_deterministic f n s :
  deterministic f →
  increasing (upto_iter f n s)
  ∧ Forall (λ e, (length e.1 ≤ length s)%nat) (upto_iter f n s).
Proof.
  intros Hf. revert s. induction n as [|n IH]; intros s; simpl.
  { split; [done|]. by repeat constructor. }
  destruct (Hf s) as [Hlen Hprog].
  destruct (f s) as [|[s1 c1] [|? ?]]; [| |simpl in Hlen; lia].
  - simpl. split; [done|]. by repeat constructor.
  - apply Forall_inv in Hprog. simpl in Hprog.
    rewrite bind_singleton.
    rewrite bind_relabel. destruct (IH s1) as [Hinc Hb].
    split.
    + apply increasing_app; [by apply increasing_relabel | done |].
      intros x y Hx ->%list_elem_of_singleton. simpl.
      apply (relabel_rest_bound _ (λ c2, c1 ++ c2)) in Hb.
      rewrite Forall_forall in Hb. specialize (Hb _ Hx). simpl in Hb. lia.
    + apply Forall_app. split; [|by repeat constructor].
      apply Forall_fmap. eapply Forall_impl; [exact Hb|].
      intros e ?. simpl in *. lia.
Qed.

Lemma run_Chr_deterministic p : deterministic (run (Chr p)).
Proof.
  intros [|a s]; simpl.
  - split; [lia | constructor].
  - destruct (p a); simpl; (split; [lia|]).
    + by repeat constructor.
    + constructor.
Qed.

Lemma run_progress r s :
  (∀ w c, matches r w c → w ≠ []) →
  Forall (λ e, (length e.1 < length s)%nat) (run r s).
Proof.
  intros Hne. apply Forall_forall. intros [rest c] Hin.
  apply run_sound in Hin as (w & -> & Hw). apply Hne in Hw.
  rewrite length_app. destruct w; [done | simpl; lia].
Qed.

Lemma star_iter_dead f n s : f s = [] → star_iter f n s = [(s, [])].
Proof. intros H. destruct n; simpl; [done|]. by rewrite H. Qed.

Lemma bind_tail_singletons l (g : list ascii * caps → list (list ascii * caps)) :
  (∀ e, e ∈ l → ∃ c, g e = [(e.1, c)]) →
  increasing l →
  increasing (l ≫= g) ∧ Forall (λ y, ∃ e, e ∈ l ∧ y.1 = e.1) (l ≫= g).
Proof.
  induction l as [|e l IH]; intros Hg Hl; [by split|].
  destruct Hl as [Hlt Hl].
  destruct (Hg e) as [c Hc]; [left|].
  destruct IH as [IH1 IH2]; [intros; apply Hg; by right | done |].
  rewrite bind_cons, Hc. simpl. split; [split; [|done]|].
  - apply Forall_forall. intros y Hy.
    rewrite Forall_forall in IH2. destruct (IH2 _ Hy) as (e' & He' & ->).
    rewrite Forall_forall in Hlt. by apply Hlt.
  - constructor; [exists e; split; [left | done]|].
    eapply Forall_impl; [exact IH2|]. intros y (e' & ? & ?).
    exists e'. split; [by right | done].
Qed.

(** A bind over an increasing list stays increasing when the results from
    an entry do not reach past its rest and every entry but the first
    gives back its own rest alone. *)
Lemma bind_headed l (g : list ascii * caps → list (list ascii * caps)) :
  increasing l →
  (∀ e, e ∈ l →
     increasing (g e) ∧ Forall (λ y, (length y.1 ≤ length e.1)%nat) (g e)) →
  (∀ e, e ∈ tail l → ∃ c, g e = [(e.1, c)]) →
  increasing (l ≫= g)
  ∧ Forall (λ y, ∃ e, e ∈ l ∧ (length y.1 ≤ length e.1)%nat) (l ≫= g).
Proof.
  destruct l as [|e1 l]; [by split|]. intros [Hlt Hl] Hg Htail.
  simpl in Htail. rewrite bind_cons.
  destruct (Hg e1) as [Hg1 Hb1]; [left|].
  destruct (bind_tail_singletons l g Htail Hl) as [Ht1 Ht2].
  split.
  - apply increasing_app; [done..|].
    intros x y Hx Hy. rewrite Forall_forall in Hb1, Ht2, Hlt.
    destruct (Ht2 _ Hy) as (e & He & ->).
    specialize (Hb1 _ Hx). specialize (Hlt _ He). lia.
  - apply Forall_app. split.
    + eapply Forall_impl; [exact Hb1|]. intros y ?. exists e1. split; [left | done].
    + eapply Forall_impl; [exact Ht2|]. intros y (e & ? & ->).
      exists e. split; [by right | done].
Qed.

(** Greedy repetition of a search whose second and later results are dead
    ends for the next round. *)
Lemma star_iter_headed f n s :
  (∀ s, increasing (f s) ∧ Forall (λ e, (length e.1 < length s)%nat) (f s)) →
  (∀ s e, e ∈ tail (f s) → f e.1 = []) →
  increasing (star_iter f n s)
  ∧ Forall (λ e, (length e.1 ≤ length s)%nat) (star_iter f n s).
Proof.
  intros H1 H2. revert s. induction n as [|n IH]; intros s; simpl.
  { split; [done|]. by repeat constructor. }
  destruct (H1 s) as [Hinc Hprog]. rewrite Forall_forall in Hprog.
  destruct (bind_headed (f s)
              (λ '(s1, c1),
                 if decide (length s1 < length s)%nat
                 then (star_iter f n s1 ≫= (λ '(s2, c2), [(s2, c1 ++ c2)]))
                 else []) Hinc) as [Hb1 Hb2].
  - intros [s1 c1] He. rewrite decide_True by by apply (Hprog (s1, c1)).
    rewrite bind_relabel. destruct (IH s1) as [? Hb].
    split; [by apply increasing_relabel | by apply relabel_rest_bound].
  - intros [s1 c1] He.
    rewrite decide_True
      by (apply (Hprog (s1, c1)); destruct (f s); [done | by right]).
    rewrite (star_iter_dead f n s1) by by apply (H2 s (s1, c1)).
    by eexists.
  - split.
    + apply increasing_app; [done..|].
      intros x y Hx ->%list_elem_of_singleton. simpl.
      rewrite Forall_forall in Hb2. destruct (Hb2 _ Hx) as (e & He & ?).
      specialize (Hprog _ He). lia.
    + apply Forall_app. split; [|by repeat constructor].
      eapply Forall_impl; [exact Hb2|]. intros y (e & He & ?).
      specialize (Hprog _ He). simpl. lia.
Qed.

Lemma star_chr_tail p n s :
  star_iter (run (Chr p)) n s ≠ []
  ∧ Forall (λ e, starts_with p e.1) (tail (star_iter (run (Chr p)) n s)).
Proof.
  remember (run (Chr p)) as f eqn:Hf.
  revert s. induction n as [|n IH]; intros s; simpl; [by split|].
  destruct s as [|a s]; [rewrite Hf; by split|].
  replace (f (a :: s)) with (if p a then [(s, @nil (nat * list ascii))] else [])
    by by rewrite Hf.
  destruct (p a) eqn:Hp; [|by split].
  rewrite bind_singleton, decide_True by (simpl; lia). rewrite bind_relabel.
  destruct (IH s) as [Hne Ht].
  destruct (star_iter f n s) as [|x t]; [done|].
  simpl. split; [done|].
  apply Forall_app. split.
  - apply Forall_fmap. by eapply Forall_impl.
  - repeat constructor. by exists a, s.
Qed.

(** The search of [[p]+]: longest first, and every result but the first
    stops in front of a character of the class. *)
Lemma plus_chr_order p s :
  increasing (run (Plus (Chr p)) s)
  ∧ Forall (λ e, starts_with p e.1) (tail (run (Plus (Chr p)) s))
  ∧ Forall (λ e, (length e.1 < length s)%nat) (run (Plus (Chr p)) s).
Proof.
  split; [|split].
  - unfold Plus. simpl. destruct s as [|a s]; [done|].
    destruct (p a); [|done]. simpl. rewrite app_nil_r, bind_relabel.
    apply increasing_relabel.
    by apply star_iter_deterministic, run_Chr_deterministic.
  - unfold Plus. simpl. destruct s as [|a s]; [done|].
    destruct (p a); [|done]. simpl. rewrite app_nil_r, bind_relabel.
    destruct (star_chr_tail p (length s) s) as [Hne Ht].
    destruct (star_iter _ _ _) as [|x t]; [done|]. simpl in *.
    apply Forall_fmap. by eapply Forall_impl.
  - apply run_progress. intros w c [_ (l & b & -> & _)]%plus_chr_ends.
    by destruct l.
Qed.

End SearchOrder.

(** ** The order of the search for the manifest pattern *)

Section PatternOrder.

Implicit Types (l : list (list ascii * caps)) (e : list ascii * caps).
Implicit Types (s w : list ascii).

Local Abbreviation alnums := (Plus (Chr is_alnum)).
Local Abbreviation more := (Cat (Chr is_sep) (Plus (Chr is_alnum))).
Local Abbreviation segment := (Cat token_re (Chr (Ascii.eqb "/"))).
Local Abbreviation reference :=
  (Cat (Chr is_word) (Upto 127 (Chr is_refchar))).

Lemma alnum_not_sep a : is_alnum a = true → is_sep a = false.
Proof. destruct a as [[] [] [] [] [] [] [] []]; by vm_compute. Qed.

Lemma run_Cat_unfold r1 r2 s :
  run (Cat r1 r2) s
  = run r1 s ≫= λ e, relabel (λ c2, e.2 ++ c2) <$> run r2 e.1.
Proof.
  simpl. apply list_bind_ext; [|done]. intros [s1 c1]. by rewrite bind_relabel.
Qed.

Lemma run_Chr_cons p a s :
  run (Chr p) (a :: s) = if p a then [(s, [])] else [].
Proof. done. Qed.

Lemma run_more_dead s : starts_with is_alnum s → run more s = [].
Proof.
  intros (a & t & -> & Ha). rewrite run_Cat_unfold, run_Chr_cons.
  by rewrite (alnum_not_sep _ Ha).
Qed.

Lemma run_more_order s :
  increasing (run more s)
  ∧ Forall (λ e, (length e.1 < length s)%nat) (run more s).
Proof.
  split.
  - rewrite run_Cat_unfold. destruct s as [|a s]; [done|].
    rewrite run_Chr_cons. destruct (is_sep a); [|done].
    rewrite bind_singleton. apply increasing_relabel, plus_chr_order.
  - apply run_progress. intros w c H ->.
    apply matches_Cat_inv in H as (w1 & w2 & ? & ? & Hw & _ & H1 & _).
    apply matches_Chr_inv in H1 as (a & -> & _). done.
Qed.

Lemma run_more_tail s e : e ∈ tail (run more s) → run more e.1 = [].
Proof.
  rewrite run_Cat_unfold. destruct s as [|a s]; [by intros ?%elem_of_nil|].
  rewrite run_Chr_cons. destruct (is_sep a) eqn:Hsep.
  - rewrite bind_singleton.
    destruct (plus_chr_order is_alnum s) as (_ & Ht & _).
    change ((s, @nil (nat * list ascii)).1) with s.
    destruct (run alnums s) as [|x t]; [simpl; by intros ?%elem_of_nil|].
    rewrite fmap_cons. simpl tail in *.
    intros (y & -> & Hy)%list_elem_of_fmap.
    rewrite Forall_forall in Ht. apply run_more_dead. by apply (Ht y).
  - by intros ?%elem_of_nil.
Qed.

Lemma run_token_order s :
  increasing (run token_re s)
  ∧ Forall (λ e, (length e.1 < length s)%nat) (run token_re s).
Proof.
  split.
  - unfold token_re. rewrite run_Cat_unfold.
    destruct (plus_chr_order is_alnum s) as (Hinc & Ht & _).
    apply bind_headed; [done|..].
    + intros e _. simpl.
      destruct (star_iter_headed (run more) (length e.1) e.1
                  run_more_order run_more_tail) as [H1 H2].
      split; [by apply increasing_relabel | by apply relabel_rest_bound].
    + intros e He. rewrite Forall_forall in Ht. specialize (Ht _ He).
      simpl. rewrite star_iter_dead by by apply run_more_dead.
      by eexists.
  - apply run_progress. intros w c H ->. unfold token_re, Plus in H.
    apply matches_Cat_inv in H as (w1 & w2 & c1 & c2 & Hw & _ & H1 & _).
    apply matches_Cat_inv in H1 as (w3 & w4 & c3 & c4 & -> & _ & H3 & _).
    apply matches_Chr_inv in H3 as (a & -> & _). done.
Qed.

Lemma token_word_no_slash w c : matches token_re w c → slash ∉ w.
Proof.
  intros H Hin.
  assert (Forall (λ a, is_alnum a = true ∨ is_sep a = true) w) as HF.
  { revert H. apply matches_classes_within.
    unfold token_re, Plus. simpl. naive_solver. }
  rewrite Forall_forall in HF. by destruct (HF _ Hin).
Qed.

Lemma first_slash_unique w w' x x' :
  slash ∉ w → slash ∉ w' → w ++ slash :: x = w' ++ slash :: x' → w = w'.
Proof.
  revert w'. induction w as [|a w IH]; intros [|a' w'] Hw Hw' Heq;
    simplify_eq/=; [done | set_solver | set_solver |].
  f_equal. apply IH; [set_solver | set_solver | done].
Qed.

Lemma bind_all_nil {A B} (l : list A) (k : A → list B) :
  (∀ x, x ∈ l → k x = []) → l ≫= k = [].
Proof.
  induction l as [|x l IH]; intros H; [done|].
  rewrite bind_cons, H by left. apply IH. intros; apply H. by right.
Qed.

Lemma at_most_one l (k : list ascii * caps → list (list ascii * caps)) :
  increasing l →
  (∀ e e', e ∈ l → e' ∈ l → k e ≠ [] → k e' ≠ [] → length e.1 = length e'.1) →
  (∀ e, (length (k e) ≤ 1)%nat) →
  (length (l ≫= k) ≤ 1)%nat.
Proof.
  induction l as [|e l IH]; intros Hinc Hsame Hk; [simpl; lia|].
  destruct Hinc as [Hlt Hinc]. rewrite bind_cons.
  destruct (decide (k e = [])) as [->|Hne].
  - apply IH; [done| |done]. intros e1 e2 ??. apply Hsame; by right.
  - rewrite (bind_all_nil l k), app_nil_r; [done|].
    intros e' He'. destruct (decide (k e' = [])) as [|Hne']; [done|].
    rewrite Forall_forall in Hlt. specialize (Hlt _ He').
    specialize (Hsame e e'). rewrite Hsame in Hlt; [lia|by left|by right|done..].
Qed.

(** A segment is read in one way at most. *)
Lemma run_segment_deterministic : deterministic (run segment).
Proof.
  intros s. split.
  - rewrite run_Cat_unfold. destruct (run_token_order s) as [Hinc _].
    apply at_most_one; [done| |].
    + intros [r c] [r' c'] He He' Hk Hk'. cbn [fst snd] in *.
      destruct r as [|a x]; [by destruct Hk|].
      destruct r' as [|a' x']; [by destruct Hk'|].
      rewrite run_Chr_cons in Hk, Hk'.
      destruct (Ascii.eqb_spec "/" a) as [<-|]; [|by destruct Hk].
      destruct (Ascii.eqb_spec "/" a') as [<-|]; [|by destruct Hk'].
      apply run_sound in He as (w & -> & Hw), He' as (w' & Heq & Hw').
      apply token_word_no_slash in Hw, Hw'.
      pose proof (first_slash_unique _ _ _ _ Hw Hw' Heq) as ->.
      apply app_inv_head in Heq. by injection Heq as ->.
    + intros [r c]. cbn [fst snd]. destruct r as [|a x]; [simpl; lia|].
      rewrite run_Chr_cons. destruct (Ascii.eqb _ _); simpl; lia.
  - apply run_progress. intros w c H ->.
    apply matches_Cat_inv in H as (w1 & w2 & ? & ? & Hw & _ & _ & H2).
    apply matches_Chr_inv in H2 as (a & -> & _). by destruct w1.
Qed.

Lemma run_segments_order s :
  increasing (run (Plus segment) s).
Proof.
  unfold Plus. rewrite run_Cat_unfold.
  destruct (run_segment_deterministic s) as [Hlen _].
  destruct (run segment s) as [|e [|? ?]]; [done| |simpl in Hlen; lia].
  rewrite bind_singleton. apply increasing_relabel.
  by apply star_iter_deterministic, run_segment_deterministic.
Qed.

Lemma run_Group_unfold i r s :
  run (Group i r) s
  = (λ e, (e.1, e.2 ++ [(i, take (length s - length e.1) s)])) <$> run r s.
Proof.
  simpl. induction (run r s) as [|[s1 c1] l IH]; [done|].
  by rewrite bind_cons, fmap_cons, IH.
Qed.

Lemma run_Group_order i r s : increasing (run r s) → increasing (run (Group i r) s).
Proof. intros H. rewrite run_Group_unfold. by apply increasing_fmap. Qed.

Lemma run_reference_order s : increasing (run reference s).
Proof.
  rewrite run_Cat_unfold. destruct s as [|a s]; [done|].
  rewrite run_Chr_cons. destruct (is_word a); [|done].
  rewrite bind_singleton. apply increasing_relabel.
  by apply upto_iter_deterministic, run_Chr_deterministic.
Qed.

Lemma run_Lit_cases lit s :
  run (Lit lit) s = [] ∨ ∃ s1, s = lit ++ s1 ∧ run (Lit lit) s = [(s1, [])].
Proof.
  revert s. induction lit as [|a lit IH]; intros s; [right; by exists s|].
  change (Lit (a :: lit)) with (Cat (Chr (Ascii.eqb a)) (Lit lit)).
  rewrite run_Cat_unfold. destruct s as [|b s]; [by left|].
  rewrite run_Chr_cons. destruct (Ascii.eqb_spec a b) as [<-|]; [|by left].
  rewrite bind_singleton. cbn [fst snd].
  destruct (IH s) as [->|(s1 & -> & ->)]; [by left|].
  right. by exists s1.
Qed.

Lemma relabel_nil l : relabel (λ c2, [] ++ c2) <$> l = l.
Proof. induction l as [|[??] l IH]; [done|]. by rewrite fmap_cons, IH. Qed.

Lemma increasing_ordered l :
  increasing l ↔ ordered (λ e e', (length e.1 < length e'.1)%nat) l.
Proof. induction l as [|e l IH]; simpl; [done|]. by rewrite IH. Qed.

Lemma ordered_app {A} (R : A → A → Prop) (l1 l2 : list A) :
  ordered R l1 → ordered R l2 → (∀ a b, a ∈ l1 → b ∈ l2 → R a b) →
  ordered R (l1 ++ l2).
Proof.
  induction l1 as [|x l1 IH]; intros H1 H2 H; [done|].
  destruct H1 as [Hx H1]. simpl. split.
  - apply Forall_app. split; [done|]. apply Forall_forall. intros b Hb.
    apply H; [left | done].
  - apply IH; [done..|]. intros a b Ha Hb. apply H; [by right | done].
Qed.

Lemma ordered_bind {A B} (R1 : A → A → Prop) (R2 : B → B → Prop)
    (l : list A) (k : A → list B) :
  ordered R1 l →
  (∀ x, x ∈ l → ordered R2 (k x)) →
  (∀ x x' y y', x ∈ l → x' ∈ l → R1 x x' → y ∈ k x → y' ∈ k x' → R2 y y') →
  ordered R2 (l ≫= k).
Proof.
  induction l as [|x l IH]; intros H1 Hk Hc; [done|].
  destruct H1 as [Hx H1]. rewrite bind_cons. apply ordered_app.
  - apply Hk. left.
  - apply IH; [done| |].
    + intros; apply Hk; by right.
    + intros x1 x2 y y' ?????. apply (Hc x1 x2); [by right | by right | done..].
  - intros a b Ha (x' & Hb & Hx')%list_elem_of_bind.
    rewrite Forall_forall in Hx.
    apply (Hc x x'); [left | by right | by apply Hx | done..].
Qed.

Lemma ordered_head {A} (R : A → A → Prop) (h : A) (t : list A) (x : A) :
  ordered R (h :: t) → x ∈ h :: t → x = h ∨ R h x.
Proof.
  intros [H _] [->|He]%elem_of_cons; [by left|]. right.
  rewrite Forall_forall in H. by apply H.
Qed.

Lemma same_group_ordered l n :
  increasing l → (∀ y, y ∈ l → group_length 1 y = n) → ordered preferred l.
Proof.
  induction l as [|e l IH]; intros Hinc Hn; [done|].
  destruct Hinc as [He Hinc]. split.
  - rewrite Forall_forall in He |- *. intros y Hy. right.
    split; [|by apply He]. rewrite !Hn; [done | by right | left].
  - apply IH; [done|]. intros; apply Hn; by right.
Qed.

Local Abbreviation manifests :=
  (Cat (Lit (chars "manifests/")) (Group 2 reference)).

Lemma run_manifests_order s : increasing (run manifests s).
Proof.
  rewrite run_Cat_unfold.
  destruct (run_Lit_cases (chars "manifests/") s) as [->|(s1 & -> & ->)];
    [done|].
  rewrite bind_singleton.
  apply increasing_relabel, run_Group_order, run_reference_order.
Qed.

Lemma repository_group s e y :
  e ∈ run (Group 1 (Plus segment)) s →
  y ∈ relabel (λ c2, e.2 ++ c2) <$> run manifests e.1 →
  length s = (group_length 1 y + length e.1)%nat.
Proof.
  destruct e as [s1 c1]. cbn [fst snd].
  intros (w & -> & Hw)%run_sound ([s2 c2] & -> & Hy)%list_elem_of_fmap.
  apply matches_Group_inv in Hw as (c & -> & Hw).
  apply plus_segments in Hw as (-> & _).
  apply run_sound in Hy as (w2 & _ & Hw2).
  apply matches_Cat_inv in Hw2 as (w3 & w4 & c3 & c4 & _ & -> & H3 & H4).
  apply matches_Lit in H3 as [_ ->].
  apply matches_Group_inv in H4 as (c5 & -> & H5).
  apply reference_matches in H5 as (-> & _).
  unfold group_length, relabel. cbn [fst snd app].
  destruct (submatch_two w w4) as [-> _]. by rewrite length_app.
Qed.

(** The results of the manifest pattern come in the order of preference. *)
Lemma run_manifest_ordered s : ordered preferred (run manifestURLPattern s).
Proof.
  unfold manifestURLPattern. rewrite run_Cat_unfold.
  destruct (run_Lit_cases (chars "/v2/") s) as [->|(s1 & -> & ->)]; [done|].
  rewrite bind_singleton. cbn [fst snd]. rewrite relabel_nil.
  rewrite run_Cat_unfold.
  apply (ordered_bind (λ e e', (length e.1 < length e'.1)%nat)).
  - apply increasing_ordered, run_Group_order, run_segments_order.
  - intros e He.
    apply (same_group_ordered _ (length s1 - length e.1)).
    + apply increasing_relabel, run_manifests_order.
    + intros y Hy. pose proof (repository_group _ _ _ He Hy). lia.
  - intros e e' y y' He He' Hlt Hy Hy'. left.
    pose proof (repository_group _ _ _ He Hy).
    pose proof (repository_group _ _ _ He' Hy'). lia.
Qed.

(** The first result of the search is the one MatchPullManifest
    returns. *)
Lemma MatchPullManifest_head (req : Request) (repo ref : string) :
  MatchPullManifest req = (true, repo, ref) →
  ∃ segs rest tl,
    repo = join "/" segs ∧
    chars (Path req) = chars (manifest_path segs ref) ++ rest ∧
    run manifestURLPattern (chars (Path req))
    = (rest, [(1, chars (join "/" segs) ++ chars "/"); (2, chars ref)]) :: tl.
Proof.
  unfold MatchPullManifest, MethodGet.
  destruct (String.eqb_spec (Method req) "GET") as [HG|]; [|done]. simpl.
  unfold FindStringSubmatch.
  destruct (run manifestURLPattern (chars (Path req)))
    as [|[rest c] tl] eqn:Hrun; [done|].
  assert ((rest, c) ∈ run manifestURLPattern (chars (Path req))) as Hin
    by (rewrite Hrun; left).
  apply run_sound in Hin as (w & Hp & Hm).
  apply manifestURLPattern_matches in Hm
    as (segs & ref' & Hne & Hsegs & Href & -> & ->).
  change (NumSubexp manifestURLPattern) with 2%nat. cbn [seq fmap list_fmap].
  destruct (submatch_two (chars (join "/" segs) ++ chars "/") (chars ref'))
    as [-> ->].
  rewrite str_app, !str_chars, TrimSuffix_app. intros [= <- <-].
  by exists segs, rest, tl.
Qed.

Lemma manifest_path_length segs ref rest :
  length (chars (manifest_path segs ref) ++ rest)
  = (15 + String.length (join "/" segs) + String.length ref + length rest)%nat.
Proof.
  unfold manifest_path. rewrite !chars_app, !length_app, !length_chars.
  simpl. lia.
Qed.

Lemma MatchPullManifest_preferred
    (req : Request) (repo ref : string)
    (segs' : list string) (ref' rest' : string) :
  MatchPullManifest req = (true, repo, ref) →
  segs' ≠ [] → Forall is_token segs' → is_reference ref' →
  Path req = manifest_path segs' ref' +:+ rest' →
  (String.length (join "/" segs') ≤ String.length repo)%nat
  ∧ (String.length (join "/" segs') = String.length repo →
     (String.length ref' ≤ String.length ref)%nat).
Proof.
  intros (segs & rest & tl & -> & Hp & Hrun)%MatchPullManifest_head
    Hne Hsegs Href Hp'.
  assert (matches manifestURLPattern (chars (manifest_path segs' ref'))
            [(1, chars (join "/" segs') ++ chars "/"); (2, chars ref')]) as Hm
    by (apply manifestURLPattern_matches; eauto 10).
  apply run_complete with (rest := chars rest') in Hm.
  rewrite <- (chars_app (manifest_path segs' ref') rest'), <- Hp', Hrun in Hm.
  pose proof (run_manifest_ordered (chars (Path req))) as Hord.
  rewrite Hrun in Hord.
  pose proof (f_equal length Hp) as Hlen.
  rewrite Hp', chars_app, !manifest_path_length, length_chars in Hlen.
  apply (ordered_head _ _ _ _ Hord) in Hm as [[= Hrest Hg _]|[Hg|[Hg Hr]]].
  - apply (f_equal length) in Hg, Hrest.
    rewrite !length_app, !length_chars in Hg. rewrite length_chars in Hrest.
    simpl in Hg. lia.
  - unfold group_length in Hg. cbn [fst snd] in Hg.
    destruct (submatch_two (chars (join "/" segs) ++ chars "/") (chars ref))
      as [Hs _]. rewrite Hs in Hg.
    destruct (submatch_two (chars (join "/" segs') ++ chars "/") (chars ref'))
      as [Hs' _]. rewrite Hs' in Hg.
    rewrite !length_app, !length_chars in Hg. simpl in Hg. lia.
  - unfold group_length in Hg. cbn [fst snd] in Hg, Hr.
    destruct (submatch_two (chars (join "/" segs) ++ chars "/") (chars ref))
      as [Hs _]. rewrite Hs in Hg.
    destruct (submatch_two (chars (join "/" segs') ++ chars "/") (chars ref'))
      as [Hs' _]. rewrite Hs' in Hg.
    rewrite !length_app, !length_chars in Hg. rewrite length_chars in Hr.
    simpl in Hg. lia.
Qed.

Lemma manifests_shift (d r x : list ascii) :
  slash ∉ r →
  chars "/manifests/" ++ r = d ++ chars "/manifests/" ++ x → d = [].
Proof.
  intros Hr Heq. destruct d as [|a d]; [done|]. exfalso. simpl in Heq.
  do 10 (destruct d as [|? d];
         [simplify_eq/=; try (apply Hr; set_solver) | simplify_eq/=]).
  apply Hr. apply elem_of_app. right. left.
Qed.

Lemma manifests_unique (J J0 r x : list ascii) :
  slash ∉ r → (length J ≤ length J0)%nat →
  J ++ chars "/manifests/" ++ r = J0 ++ chars "/manifests/" ++ x → J = J0.
Proof.
  intros Hr Hlen Heq.
  apply app_eq_app in Heq as [d [[-> Hd]|[-> Hd]]].
  - rewrite length_app in Hlen.
    destruct d; [by rewrite app_nil_r | simpl in Hlen; lia].
  - apply manifests_shift in Hd as ->; [by rewrite app_nil_r | done].
Qed.

Lemma MatchPullManifest_exact
    (req : Request) (segs : list string) (ref : string) :
  Method req = "GET" →
  segs ≠ [] → Forall is_token segs → is_reference ref →
  Path req = manifest_path segs ref →
  MatchPullManifest req = (true, join "/" segs, ref).
Proof.
  intros HG Hne Hsegs Href Hp.
  assert (Path req = manifest_path segs ref +:+ "") as Hp'.
  { apply chars_inj. by rewrite chars_app, app_nil_r, Hp. }
  assert ((MatchPullManifest req).1.1 = true) as Hflag.
  { apply MatchPullManifest_flag. split; [done|]. by exists segs, ref, "". }
  destruct (MatchPullManifest req) as [[b repo] ref0] eqn:HM.
  simpl in Hflag. subst b.
  destruct (MatchPullManifest_preferred _ _ _ _ _ _ HM Hne Hsegs Href Hp')
    as [Hle Href_le].
  destruct (MatchPullManifest_head _ _ _ HM)
    as (segs0 & rest0 & tl & -> & Hp0 & _).
  rewrite Hp in Hp0. unfold manifest_path in Hp0.
  rewrite !chars_app, <- !app_assoc in Hp0.
  apply app_inv_head in Hp0.
  rewrite <- !length_chars in Hle, Href_le.
  pose proof (reference_chars _ Href) as Hc.
  assert (slash ∉ chars ref) as Hslash.
  { intros Hin. rewrite Forall_forall in Hc. by specialize (Hc _ Hin). }
  pose proof (manifests_unique _ _ _ _ Hslash Hle Hp0) as HJ.
  rewrite HJ in Hp0. do 2 apply app_inv_head in Hp0.
  specialize (Href_le (f_equal length HJ)).
  apply (f_equal length) in Hp0 as Hlen.
  rewrite length_app, !length_chars in Hlen.
  destruct rest0; [|simpl in Hlen; lia]. rewrite app_nil_r in Hp0.
  apply chars_inj in HJ, Hp0. by rewrite HJ, Hp0.
Qed.

End PatternOrder.

(** ** Which reading of a path the matcher returns *)

Lemma manifest_reading_chars p repo ref :
  manifest_reading p repo ref →
  ∃ rest,
    chars p
    = chars "/v2/" ++ chars repo ++ chars "/manifests/" ++ chars ref ++ rest.
Proof.
  intros (segs & rest & _ & _ & _ & -> & ->). exists (chars rest).
  unfold manifest_path. by rewrite !chars_app, <- !app_assoc.
Qed.

Lemma manifest_reading_unique p repo ref repo' ref' :
  manifest_reading p repo ref → manifest_reading p repo' ref' →
  String.length repo = String.length repo' →
  String.length ref = String.length ref' →
  repo = repo' ∧ ref = ref'.
Proof.
  intros [rest Hp]%manifest_reading_chars [rest' Hp']%manifest_reading_chars
    Hrepo Href.
  rewrite Hp in Hp'. apply app_inv_head in Hp'.
  apply app_inj_1 in Hp' as [Hr Hp']; [|by rewrite !length_chars].
  apply app_inv_head in Hp'.
  apply app_inj_1 in Hp' as [Hf _]; [|by rewrite !length_chars].
  split; by apply chars_inj.
Qed.

(** C2, as amended: MatchPullManifest reports a manifest pull exactly when
    the method is GET and the path begins with
    /v2/<segments>/manifests/<reference> (anything may follow the
    reference); every other request yields (false, empty, empty).  The
    repository and the reference it returns are those of one way of
    reading the path in that form, the segment path without its trailing
    slash and the reference: of all such readings the one with the
    longest repository and, with that repository, the longest reference,
    and no other.  For a GET of exactly
    /v2/<segments>/manifests/<reference> they are the segment path and
    the reference the path is made of. *)
Theorem MatchPullManifest_spec (req : Request) :
  ((MatchPullManifest req).1.1 = true ↔
     Method req = "GET" ∧ has_manifest_prefix (Path req))
  ∧ ((MatchPullManifest req).1.1 = false →
     MatchPullManifest req = (false, "", ""))
  ∧ (∀ repo ref,
       MatchPullManifest req = (true, repo, ref) ↔
       Method req = "GET"
       ∧ manifest_reading (Path req) repo ref
       ∧ ∀ repo' ref',
           manifest_reading (Path req) repo' ref' →
           (String.length repo' ≤ String.length repo)%nat
           ∧ (String.length repo' = String.length repo →
              (String.length ref' ≤ String.length ref)%nat))
  ∧ (∀ segs ref,
       Method req = "GET" →
       segs ≠ [] → Forall is_token segs → is_reference ref →
       Path req = manifest_path segs ref →
       MatchPullManifest req = (true, join "/" segs, ref)).
Proof.
  split; [apply MatchPullManifest_flag|].
  split; [apply MatchPullManifest_false|].
  split; [|intros segs ref; apply MatchPullManifest_exact].
  intros repo ref. split.
  - intros HM. pose proof (MatchPullManifest_true _ _ _ HM) as [HG Hread].
    split; [done|]. split; [done|].
    intros repo' ref' (segs' & rest' & Hne & Hsegs & Href & -> & Hp).
    by apply (MatchPullManifest_preferred req repo ref segs' ref' rest').
  - intros (HG & Hread & Hmax).
    assert ((MatchPullManifest req).1.1 = true) as Hflag.
    { apply MatchPullManifest_flag. split; [done|].
      destruct Hread as (segs & rest & ? & ? & ? & _ & ?).
      by exists segs, ref, rest. }
    destruct (MatchPullManifest req) as [[b repo0] ref0] eqn:HM.
    simpl in Hflag. subst b.
    pose proof (MatchPullManifest_true _ _ _ HM) as [_ Hread0].
    destruct (Hmax _ _ Hread0) as [Hle Hle'].
    destruct Hread as (segs & rest & Hne & Hsegs & Href & -> & Hp).
    destruct (MatchPullManifest_preferred req repo0 ref0 segs ref rest
                HM Hne Hsegs Href Hp) as [Hge Hge'].
    assert (manifest_reading (Path req) (join "/" segs) ref) as Hread
      by (by exists segs, rest).
    destruct (manifest_reading_unique _ _ _ _ _ Hread0 Hread) as [-> ->];
      [lia | lia | done].
Qed.

(** The path /v2/library/manifests/v1/manifests/v2 reads in two ways;
    the repository returned is the longer one. *)
Lemma MatchPullManifest_spec_witness :
  manifest_reading "/v2/library/manifests/v1/manifests/v2"
    "library/manifests/v1" "v2"
  ∧ (manifest_reading "/v2/library/manifests/v1/manifests/v2" "library" "v1" →
     (String.length "library" ≤ String.length "library/manifests/v1")%nat
     ∧ (String.length "library" = String.length "library/manifests/v1" →
        (String.length "v1" ≤ String.length "v2")%nat)).
Proof.
  destruct (proj1 (proj1 (proj2 (proj2 (MatchPullManifest_spec
                     (GET "/v2/library/manifests/v1/manifests/v2"))))
                     "library/manifests/v1" "v2")
              ltac:(by vm_compute)) as (_ & Hread & Hmax).
  split; [exact Hread | exact (Hmax "library" "v1")].
Defined.

(** ** The policy of the environment *)

Lemma vulnerableHandler_disabled E next rw req st img threshold st1 :
  ImageInfo req = Some img →
  WithClair E = true →
  vulnerablePolicy (getPolicyChecker E) (projectName img) st
  = Some ((false, threshold), st1) →
  vulnerableHandler_ServeHTTP E next rw req st = next rw req st1.
Proof.
  intros Himg HC Hpol. unfold vulnerableHandler_ServeHTTP.
  rewrite Himg, HC. cbn [negb]. munfold. by rewrite Hpol.
Qed.

(** X10: without Admiral the policy of a project is read from the
    process environment, whatever the project's name, and the project
    manager is not called.  Content trust counts as enabled exactly when
    PROJECT_CONTENT_TRUST is the string 1; the vulnerability policy
    counts as enabled exactly when PROJECT_VULNERABLE is the string 1,
    with the threshold parsed from PROJECT_SEVERITY, which is read even
    when the policy is off.  With any other value a stage hands the
    request on, having made only these reads. *)
Theorem envPolicyChecker_stages
    (E : Env) (next : Handler) (rw : nat) (req : Request) (img : imageInfo)
    (st : State) :
  WithAdmiral E = false →
  ImageInfo req = Some img →
  (∀ name,
     contentTrustEnabled (getPolicyChecker E) name st
     = Some (String.eqb (Getenv E "PROJECT_CONTENT_TRUST") "1",
             {| writers := writers st; rec := rec st;
                trace := trace st ++ [EvGetenv "PROJECT_CONTENT_TRUST"] |})
     ∧ vulnerablePolicy (getPolicyChecker E) name st
       = Some ((String.eqb (Getenv E "PROJECT_VULNERABLE") "1",
                ParseClairSev E (Getenv E "PROJECT_SEVERITY")),
               {| writers := writers st; rec := rec st;
                  trace := trace st ++ [EvGetenv "PROJECT_VULNERABLE";
                                        EvGetenv "PROJECT_SEVERITY"] |}))
  ∧ (WithNotary E = true →
     Getenv E "PROJECT_CONTENT_TRUST" ≠ "1" →
     contentTrustHandler_ServeHTTP E next rw req st
     = next rw req
         {| writers := writers st; rec := rec st;
            trace := trace st ++ [EvGetenv "PROJECT_CONTENT_TRUST"] |})
  ∧ (WithClair E = true →
     Getenv E "PROJECT_VULNERABLE" ≠ "1" →
     vulnerableHandler_ServeHTTP E next rw req st
     = next rw req
         {| writers := writers st; rec := rec st;
            trace := trace st ++ [EvGetenv "PROJECT_VULNERABLE";
                                  EvGetenv "PROJECT_SEVERITY"] |}).
Proof.
  intros HA Himg.
  assert (∀ name,
            contentTrustEnabled (getPolicyChecker E) name st
            = Some (String.eqb (Getenv E "PROJECT_CONTENT_TRUST") "1",
                    add_trace st [EvGetenv "PROJECT_CONTENT_TRUST"])) as Hct.
  { intros name. unfold getPolicyChecker. rewrite HA.
    apply envPolicyChecker_contentTrust. }
  assert (∀ name,
            vulnerablePolicy (getPolicyChecker E) name st
            = Some ((String.eqb (Getenv E "PROJECT_VULNERABLE") "1",
                     ParseClairSev E (Getenv E "PROJECT_SEVERITY")),
                    add_trace st [EvGetenv "PROJECT_VULNERABLE";
                                  EvGetenv "PROJECT_SEVERITY"])) as Hvp.
  { intros name. unfold getPolicyChecker. rewrite HA.
    apply envPolicyChecker_vulnerable. }
  split; [by intros name; rewrite Hct, Hvp|]. split.
  - intros HN Hoff. apply String.eqb_neq in Hoff.
    specialize (Hct (projectName img)). rewrite Hoff in Hct.
    by rewrite (contentTrustHandler_enforced _ _ _ _ _ _ _ _ Himg HN Hct).
  - intros HC Hoff. apply String.eqb_neq in Hoff.
    specialize (Hvp (projectName img)). rewrite Hoff in Hvp.
    by rewrite (vulnerableHandler_disabled _ _ _ _ _ _ _ _ Himg HC Hvp).
Qed.

(** PROJECT_VULNERABLE is set to true, which is not 1: the stage hands
    the request on. *)
Lemma envPolicyChecker_stages_witness :
  let E := deploy (envDeployment [signed "v1" "abc"] (None, None)) in
  let img := imgOf "library/ubuntu" "v1" "library" "sha256:abc" in
  vulnerableHandler_ServeHTTP E echoRegistry 0 (pulling img) oneClient
  = echoRegistry 0 (pulling img)
      {| writers := [freshWriter]; rec := None;
         trace := [EvGetenv "PROJECT_VULNERABLE"; EvGetenv "PROJECT_SEVERITY"] |}.
Proof.
  apply (proj2 (proj2 (envPolicyChecker_stages
           (deploy (envDeployment [signed "v1" "abc"] (None, None)))
           echoRegistry 0
           (pulling (imgOf "library/ubuntu" "v1" "library" "sha256:abc"))
           (imgOf "library/ubuntu" "v1" "library" "sha256:abc")
           oneClient eq_refl eq_refl)) eq_refl).
  by vm_compute.
Defined.
